(** * An in-memory key-value store with gob snapshots (main.go)

    The development embeds [DataBase] and its four methods [Set], [Get],
    [Persist] and [Load] together with the two library layers the methods
    lean on:

    - the [os] layer: a flat file system in which a path is absent, a
      regular file with a byte content, or a place the process may not
      touch;
    - the [encoding/gob] layer: the byte stream one [Encode] call produces
      for a [map[string]any] and the way one [Decode] call consumes such a
      stream into an existing map value.

    Go's [any] is restricted to the dynamic types that a program which never
    calls [gob.Register] can meet in a snapshot: the nil interface, [bool],
    [int] and [string] (all registered by the library itself), plus one
    constructor standing for every value whose dynamic type is not
    registered.

    Left out: a write that fails after [os.Create] went through; type
    descriptors other than those of map types; the other basic types the
    library registers (sized and unsigned integers, floats, complex
    numbers, byte slices); the precedence [sync.RWMutex] gives a waiting
    writer over readers that arrive later. *)

From Stdlib Require Import ZArith NArith List Lia String Ascii.
From Stdlib.Strings Require Import Byte.
From stdpp Require Import base option list gmap strings fin_maps.

Local Open Scope N_scope.

(** ** Bytes *)

Module Bytes.

(** The byte holding the low eight bits of [x] (Go's [uint8(x)]). *)
Definition of_N (x : N) : byte :=
  default x00 (Byte.of_N (x mod 256)).

(** [n] low-order bytes of [x], most significant first
    ([binary.BigEndian.PutUint64] for [n = 8]). *)
Fixpoint be_bytes (n : nat) (x : N) : list byte :=
  match n with
  | O => []
  | S n' => be_bytes n' (x / 256) ++ [of_N x]
  end.

(** [x = x<<8 | uint64(b)] over a run of bytes. *)
Definition be_value (bs : list byte) : N :=
  fold_left (fun x b => x * 256 + Byte.to_N b) bs 0.

Definition of_string (s : string) : list byte := list_byte_of_string s.
Definition to_string (bs : list byte) : string := string_of_list_byte bs.

End Bytes.

(** ** Values and the store *)

(** The dynamic values an [any] slot of the store may hold. *)
Inductive value : Type :=
| VNil                      (* the nil interface *)
| VBool (b : bool)
| VInt (i : Z)              (* Go [int], 64 bits *)
| VString (s : string)
| VUnregistered.            (* a value of a type gob has no name for *)

Global Instance value_eq_dec : EqDecision value.
Proof. solve_decision. Defined.

(** The values a Go program can build: an [int] has 64 bits. *)
Definition goValue (v : value) : Prop :=
  match v with
  | VInt i => (- 2 ^ 63 <= i < 2 ^ 63)%Z
  | _ => True
  end.

Global Instance goValue_dec v : Decision (goValue v).
Proof. destruct v; simpl; apply _. Defined.

(** [DataBase]: the [data] field; the [lock] field is modelled apart, in
    [Module Locking], because no method reads it as data. *)
Record DataBase : Type := mkDataBase { data : gmap string value }.

Definition NewDataBase : DataBase := {| data := ∅ |}.

(** [db.data[key] = value] *)
Definition Set_ (key : string) (v : value) (db : DataBase) : DataBase :=
  {| data := <[key := v]> (data db) |}.

(** [value, exists := db.data[key]]: the zero value of [any] is nil. *)
Definition Get (key : string) (db : DataBase) : value * bool :=
  match data db !! key with
  | Some v => (v, true)
  | None => (VNil, false)
  end.

(** ** Errors *)

(** The [error] values the four methods can hand back.  [os] reports a path
    error; [encoding/gob] reports [io.EOF], [io.ErrUnexpectedEOF] or one of
    its own messages. *)
Inductive gobError : Type :=
| errBadUint              (* encoded unsigned integer out of range *)
| errBadCount             (* invalid message length *)
| errUintDataLength       (* invalid uint data length: exceeds input size *)
| errDuplicateType        (* duplicate type received *)
| errExtraData            (* extra data in buffer *)
| errBadType              (* a type descriptor that is not a map descriptor *)
| errWrongType            (* wrong type received for local value *)
| errNonZeroDelta         (* corrupted data: non-zero delta for singleton *)
| errBadStringLength      (* bad string length *)
| errNameLength           (* invalid type name length *)
| errNameTooLong          (* name too long *)
| errNameNotRegistered    (* name not registered for interface *)
| errTypeNotRegistered    (* encoder: type not registered for interface *)
| errMessageTooBig        (* encoder: message too big *)
| errSpin.                (* the fuel of the decoding loop is used up *)

Inductive errno : Type := ENOENT | EACCES.

Inductive error : Type :=
| PathError (e : errno)
| EOF
| ErrUnexpectedEOF
| GobError (g : gobError).

Global Instance gobError_eq_dec : EqDecision gobError.
Proof. solve_decision. Defined.
Global Instance errno_eq_dec : EqDecision errno.
Proof. solve_decision. Defined.
Global Instance error_eq_dec : EqDecision error.
Proof. solve_decision. Defined.

(** The three failure kinds of the written design. *)
Inductive ErrorClass : Type := IOError | SerializationError | DeserializationError.

Definition classify (e : error) : ErrorClass :=
  match e with
  | PathError _ => IOError
  | EOF | ErrUnexpectedEOF => DeserializationError
  | GobError errTypeNotRegistered | GobError errMessageTooBig => SerializationError
  | GobError _ => DeserializationError
  end.

(** ** encoding/gob, encoder side *)

Module Gob.

Definition uint64Size : N := 8.
(** [tooBig = (1 << 30) << (^uint(0) >> 62)] on a 64-bit machine. *)
Definition tooBig : N := 2 ^ 33.
Definition firstUserId : Z := 64.
Definition tBool : Z := 1.
Definition tInt : Z := 2.
Definition tString : Z := 6.
Definition tInterface : Z := 8.
(** The id the process gives its first user type, here [map[string]any]. *)
Definition mapTypeId : Z := 65.

Definition uint64 (x : N) : N := x mod 2 ^ 64.

(** [encodeUint]: one byte below 128; otherwise the big-endian bytes of
    [x] without leading zero bytes, after a byte holding minus their
    count. *)
Definition encodeUint (x : N) : list byte :=
  let x := uint64 x in
  if x <=? 127 then [Bytes.of_N x]
  else
    let bc := (64 - N.size x) / 8 in            (* LeadingZeros64(x) >> 3 *)
    Bytes.of_N (256 + bc - uint64Size)
      :: drop (N.to_nat bc) (Bytes.be_bytes 8 x).

(** [encodeInt]: bit 0 says whether to complement, the rest is the
    magnitude. *)
Definition encodeInt (i : Z) : list byte :=
  let x := if (i <? 0)%Z
           then Z.lor (Z.shiftl (Z.lnot i) 1) 1
           else Z.shiftl i 1 in
  encodeUint (Z.to_N (x mod 2 ^ 64)%Z).

Definition encodeString (s : string) : list byte :=
  encodeUint (N.of_nat (String.length s)) ++ Bytes.of_string s.

(** [writeMessage]: the payload after its length, refused when the
    decoder could not take it. *)
Definition writeMessage (payload : list byte) : error + list byte :=
  let messageLen := N.of_nat (length payload) in
  if tooBig <=? messageLen then inl (GobError errMessageTooBig)
  else inr (encodeUint messageLen ++ payload).

(** The concrete value inside an interface, as [encode] sends a value that
    is not a struct: a zero delta, then the value. *)
Definition encodeConcrete (name : string) (id : Z) (body : list byte)
  : error + list byte :=
  match writeMessage (Bytes.of_N 0 :: body) with
  | inl e => inl e
  | inr msg => inr (encodeString name ++ encodeInt id ++ msg)
  end.

(** [encodeInterface]: the nil interface is an empty name; any other value
    is sent as the registered name of its type, the type id and the
    delimited value. *)
Definition encodeInterface (v : value) : error + list byte :=
  match v with
  | VNil => inr (encodeUint 0)
  | VBool b => encodeConcrete "bool" tBool (encodeUint (if b then 1 else 0))
  | VInt i => encodeConcrete "int" tInt (encodeInt i)
  | VString s => encodeConcrete "string" tString (encodeString s)
  | VUnregistered => inl (GobError errTypeNotRegistered)
  end.

(** The loop of [encodeMap] over the entries in the order the map
    iterator yields them. *)
Fixpoint encodeEntries (es : list (string * value)) : error + list byte :=
  match es with
  | [] => inr []
  | (k, v) :: es' =>
      match encodeInterface v with
      | inl e => inl e
      | inr bv =>
          match encodeEntries es' with
          | inl e => inl e
          | inr rest => inr (encodeString k ++ bv ++ rest)
          end
      end
  end.

(** [encodeMap] inside [encodeSingle]: zero delta, entry count, entries. *)
Definition encodeMap (es : list (string * value)) : error + list byte :=
  match encodeEntries es with
  | inl e => inl e
  | inr body => inr (Bytes.of_N 0 :: encodeUint (N.of_nat (length es)) ++ body)
  end.

(** The descriptor of a map type as the fields of [wireType] and
    [mapType] that are set: [MapT] (delta 4), its [CommonType] (delta 1)
    with [Id] (delta 2), [Key] (delta 1) and [Elem] (delta 1). *)
Definition mapDescriptor (id key elem : Z) : list byte :=
  [Bytes.of_N 4; Bytes.of_N 1; Bytes.of_N 2] ++ encodeInt id
    ++ [Bytes.of_N 0; Bytes.of_N 1] ++ encodeInt key
    ++ [Bytes.of_N 1] ++ encodeInt elem
    ++ [Bytes.of_N 0; Bytes.of_N 0].

(** [sendActualType]: the message [(-id, type)]. *)
Definition typeMessage : list byte :=
  let payload := encodeInt (- mapTypeId)
                   ++ mapDescriptor mapTypeId tString tInterface in
  encodeUint (N.of_nat (length payload)) ++ payload.

(** The value message of one [Encode(db.data)] call. *)
Definition valueMessage (es : list (string * value)) : error + list byte :=
  match encodeMap es with
  | inl e => inl e
  | inr body => writeMessage (encodeInt mapTypeId ++ body)
  end.

End Gob.

(** ** encoding/gob, decoder side *)

(** A [Decoder]: the unread rest of the file [r], the unread rest of the
    message in hand [buf], and the map types the stream has defined so far,
    each with the type ids of its keys and elements. *)
Record Decoder : Type := mkDecoder {
  r : list byte;
  buf : list byte;
  wireType : gmap Z (Z * Z)
}.

(** The decoder with [b] as what is left of the message in hand. *)
Definition setBuf (b : list byte) (d : Decoder) : Decoder :=
  mkDecoder (r d) b (wireType d).

(** Decoding steps either fail or give a result and the decoder after it. *)
Definition Dec (A : Type) : Type := Decoder -> error + (A * Decoder).

Definition ret {A} (a : A) : Dec A := fun d => inr (a, d).
Definition fail {A} (e : error) : Dec A := fun _ => inl e.
Definition bind {A B} (m : Dec A) (k : A -> Dec B) : Dec B :=
  fun d => match m d with
           | inl e => inl e
           | inr (a, d') => k a d'
           end.

Notation "x <- m ;; k" := (bind m (fun x => k))
  (at level 100, m at next level, right associativity, only parsing).
Notation "m ;;; k" := (bind m (fun _ => k))
  (at level 100, right associativity, only parsing).

Module GobDec.
Import Gob.

(** The common part of [decodeUintReader] and [decoderState.decodeUint]:
    [atEnd] is the error on an empty source, [short] the one when fewer
    than the announced bytes are left. *)
Definition readUint (atEnd short : error) (src : list byte)
  : error + (N * list byte) :=
  match src with
  | [] => inl atEnd
  | b :: rest =>
      let bv := Byte.to_N b in
      if bv <=? 127 then inr (bv, rest)
      else
        let n := 256 - bv in                       (* -int(int8(b)) *)
        if uint64Size <? n then inl (GobError errBadUint)
        else if N.of_nat (length rest) <? n then inl short
        else inr (Bytes.be_value (take (N.to_nat n) rest),
                  drop (N.to_nat n) rest)
  end.

Definition decodeUintReader : list byte -> error + (N * list byte) :=
  readUint EOF ErrUnexpectedEOF.

(** [toInt] *)
Definition toInt (x : N) : Z :=
  let i := Z.of_N (x / 2) in
  if N.odd x then Z.lnot i else i.

(** [int(x)] for a [uint64] [x]. *)
Definition int (x : N) : Z :=
  if x <? 2 ^ 63 then Z.of_N x else (Z.of_N x - 2 ^ 64)%Z.

(** [state.decodeUint()] on the message in hand. *)
Definition decodeUint : Dec N := fun d =>
  match readUint EOF (GobError errUintDataLength) (buf d) with
  | inl e => inl e
  | inr (x, rest) => inr (x, setBuf rest d)
  end.

Definition decodeInt : Dec Z := x <- decodeUint ;; ret (toInt x).

(** [dec.nextUint()] and [dec.nextInt()]: the reader form, on the message
    in hand. *)
Definition nextUint : Dec N := fun d =>
  match decodeUintReader (buf d) with
  | inl e => inl e
  | inr (x, rest) => inr (x, setBuf rest d)
  end.

Definition nextInt : Dec Z := x <- nextUint ;; ret (toInt x).

(** [recvMessage]: a count, then that many bytes of the file become the
    message in hand. *)
Definition recvMessage : Dec unit := fun d =>
  match decodeUintReader (r d) with
  | inl e => inl e
  | inr (nbytes, rest) =>
      if tooBig <=? nbytes then inl (GobError errBadCount)
      else if N.of_nat (length rest) <? nbytes then inl ErrUnexpectedEOF
      else inr (tt, mkDecoder (drop (N.to_nat nbytes) rest)
                              (take (N.to_nat nbytes) rest) (wireType d))
  end.

(** Take [n] bytes of the message in hand. *)
Definition takeBytes (n : nat) : Dec (list byte) := fun d =>
  inr (take n (buf d), setBuf (drop n (buf d)) d).

Definition bufLen : Dec N := fun d => inr (N.of_nat (length (buf d)), d).

Definition expectUint (x : N) (e : error) : Dec unit :=
  y <- decodeUint ;; if decide (y = x) then ret tt else fail e.

(** [recvType]: only descriptors of map types are read; every other
    descriptor is refused where the library would go on parsing it. *)
Definition recvType (id : Z) : Dec unit :=
  fun d =>
    if bool_decide (id < firstUserId)%Z || bool_decide (is_Some (wireType d !! id))
    then inl (GobError errDuplicateType)
    else
      (expectUint 4 (GobError errBadType) ;;;
       expectUint 1 (GobError errBadType) ;;;
       expectUint 2 (GobError errBadType) ;;;
       _ <- decodeInt ;;
       expectUint 0 (GobError errBadType) ;;;
       expectUint 1 (GobError errBadType) ;;;
       key <- decodeInt ;;
       expectUint 1 (GobError errBadType) ;;;
       elem <- decodeInt ;;
       expectUint 0 (GobError errBadType) ;;;
       expectUint 0 (GobError errBadType) ;;;
       fun d' => inr (tt, mkDecoder (r d') (buf d')
                                    (<[id := (key, elem)]> (wireType d')))) d.

(** The loop of [decodeTypeSequence]: read type definitions until a
    non-negative type id announces a value.  Every round consumes at
    least one byte, so [fuel] above the number of unread bytes is never
    used up ([FuelFacts.decodeTypeSequence_fuel]). *)
Fixpoint typeSequenceLoop (fuel : nat) (isInterface firstMessage : bool)
  : Dec Z :=
  match fuel with
  | O => fail (GobError errSpin)
  | S fuel' =>
      fun d =>
        let received :=
          match buf d with
          | [] =>
              match recvMessage d with
              | inl EOF => inl (if firstMessage then EOF else ErrUnexpectedEOF)
              | other => other
              end
          | _ :: _ => inr (tt, d)
          end in
        match received with
        | inl e => inl e
        | inr (_, d1) =>
            (id <- nextInt ;;
             if (0 <=? id)%Z then ret id
             else
               recvType (- id) ;;;
               len <- bufLen ;;
               (if 0 <? len
                then if isInterface then (_ <- nextUint ;; ret tt)
                     else fail (GobError errExtraData)
                else ret tt) ;;;
               typeSequenceLoop fuel' isInterface false) d1
        end
  end.

Definition decodeTypeSequence (isInterface : bool) : Dec Z := fun d =>
  typeSequenceLoop (S (length (buf d) + length (r d))) isInterface true d.

(** [getLength] and [decString] *)
Definition decString : Dec string :=
  x <- decodeUint ;;
  len <- bufLen ;;
  let n := int x in
  if bool_decide (n < 0)%Z || (len <? x) || (tooBig <=? x)
  then fail (GobError errBadStringLength)
  else bs <- takeBytes (N.to_nat x) ;; ret (Bytes.to_string bs).

(** [decodeSingle] for a value of one of the registered basic types,
    after [compatibleType] has compared the wire id with the local
    type. *)
Definition decodeConcrete (name : string) (concreteId : Z) : Dec value :=
  let single (id : Z) (op : Dec value) : Dec value :=
    if decide (concreteId = id)
    then expectUint 0 (GobError errNonZeroDelta) ;;; op
    else fail (GobError errWrongType) in
  if decide (name = "bool") then
    single tBool (x <- decodeUint ;; ret (VBool (negb (x =? 0))))
  else if decide (name = "int") then
    single tInt (i <- decodeInt ;; ret (VInt i))
  else if decide (name = "string") then
    single tString (s <- decString ;; ret (VString s))
  else fail (GobError errNameNotRegistered).

Definition registered (name : string) : bool :=
  bool_decide (name = "bool") || bool_decide (name = "int")
    || bool_decide (name = "string").

(** [decodeInterface] *)
Definition decodeInterface : Dec value :=
  nr <- decodeUint ;;
  len <- bufLen ;;
  if (2 ^ 31 <? nr) || (len <? nr) then fail (GobError errNameLength)
  else
    bs <- takeBytes (N.to_nat nr) ;;
    let name := Bytes.to_string bs in
    if nr =? 0 then ret VNil
    else if 1024 <? nr then fail (GobError errNameTooLong)
    else if negb (registered name) then fail (GobError errNameNotRegistered)
    else
      concreteId <- decodeTypeSequence true ;;
      _ <- decodeUint ;;                 (* the byte count, not looked at *)
      decodeConcrete name concreteId.

(** The loop of [decodeMap]: each decoded pair goes into the map value at
    once ([value.SetMapIndex(key, elem)]); an error leaves the loop with
    the pairs set so far in place. *)
Fixpoint decodeEntries (n : nat) (m : gmap string value) (d : Decoder)
  : gmap string value * (error + Decoder) :=
  match n with
  | O => (m, inr d)
  | S n' =>
      match decString d with
      | inl e => (m, inl e)
      | inr (key, d1) =>
          match decodeInterface d1 with
          | inl e => (m, inl e)
          | inr (elem, d2) => decodeEntries n' (<[key := elem]> m) d2
          end
      end
  end.

(** [decodeValue] into a map value that is not nil: the wire type must be
    a map from strings to interfaces; then [decodeSingle] and
    [decodeMap], which allocates a map only for a nil one. *)
Definition decodeValue (id : Z) (m : gmap string value) (d : Decoder)
  : gmap string value * (error + Decoder) :=
  if negb (bool_decide (wireType d !! id = Some (tString, tInterface)))
  then (m, inl (GobError errWrongType))
  else
    match (expectUint 0 (GobError errNonZeroDelta) ;;; decodeUint) d with
    | inl e => (m, inl e)
    | inr (x, d1) => decodeEntries (Z.to_nat (int x)) m d1
    end.

Definition NewDecoder (file : list byte) : Decoder := mkDecoder file [] ∅.

(** The types on record once the type message of a snapshot is read. *)
Definition mapTypes : gmap Z (Z * Z) := {[ mapTypeId := (tString, tInterface) ]}.

(** [dec.Decode(&m)] for a map [m] that is not nil. *)
Definition Decode (m : gmap string value) (d : Decoder)
  : gmap string value * (error + Decoder) :=
  match decodeTypeSequence false d with
  | inl e => (m, inl e)
  | inr (id, d1) => decodeValue id m d1
  end.

End GobDec.

(** A step that stays inside the message in hand: it does not touch the
    file, does not lengthen the message, and if it fails it is not by
    running out of fuel.  [strict] asks for at least one byte used. *)
Definition within (strict : bool) {A} (m : Dec A) : Prop :=
  forall d,
    match m d with
    | inl e => e <> GobError errSpin
    | inr (_, d') =>
        r d' = r d
        /\ (length (buf d') + (if strict then 1 else 0) <= length (buf d))%nat
    end.

(** The map after [SetMapIndex] on each pair of [es], first to last. *)
Definition setMapIndex (m : gmap string value) (es : list (string * value))
  : gmap string value :=
  foldl (fun m kv => <[kv.1 := kv.2]> m) m es.

(** ** The os layer *)

(** What a path leads to: a regular file, or something the process may
    neither open nor create.  An absent path leads to nothing. *)
Inductive node : Type :=
| Regular (content : list byte)
| NoAccess.

Abbreviation FS := (gmap string node).

(** [os.Create]: a new empty file, or the old file cut to length zero. *)
Definition os_Create (fs : FS) (name : string) : error + FS :=
  match fs !! name with
  | Some NoAccess => inl (PathError EACCES)
  | _ => inr (<[name := Regular []]> fs)
  end.

(** [file.Write] on a file opened by [os.Create]: the bytes go to its end. *)
Definition file_Write (name : string) (bs : list byte) (fs : FS) : FS :=
  match fs !! name with
  | Some (Regular c) => <[name := Regular (c ++ bs)]> fs
  | _ => fs
  end.

(** [os.Open]: the bytes a reader of the file will see. *)
Definition os_Open (fs : FS) (name : string) : error + list byte :=
  match fs !! name with
  | None => inl (PathError ENOENT)
  | Some NoAccess => inl (PathError EACCES)
  | Some (Regular c) => inr c
  end.

(** ** Persist and Load *)

(** The order in which [MapRange] yields the entries of a map is not fixed
    by the language: any enumeration of the entries may come up. *)
Definition MapRange (m : gmap string value) (iter : list (string * value)) : Prop :=
  iter ≡ₚ map_to_list m.

(** [Encode(db.data)] on a new encoder writing to the file: the type
    message goes out before the value is encoded, the value message only
    when encoding went through. *)
Definition Encode (iter : list (string * value)) (name : string) (fs : FS)
  : FS * option error :=
  let fs1 := file_Write name Gob.typeMessage fs in
  match Gob.valueMessage iter with
  | inl e => (fs1, Some e)
  | inr msg => (file_Write name msg fs1, None)
  end.

(** [Persist]; [iter] is the enumeration of [db.data] the map iterator
    comes up with during this call. *)
Definition Persist (iter : list (string * value)) (fileName : string)
    (db : DataBase) (fs : FS) : DataBase * FS * option error :=
  match os_Create fs fileName with
  | inl err => (db, fs, Some err)
  | inr fs1 =>
      let '(fs2, err) := Encode iter fileName fs1 in
      (db, fs2, err)
  end.

(** [Load]: the decoder is handed [&db.data], the map the store is using. *)
Definition Load (fileName : string) (db : DataBase) (fs : FS)
  : DataBase * FS * option error :=
  match os_Open fs fileName with
  | inl err => (db, fs, Some err)
  | inr file =>
      match GobDec.Decode (data db) (GobDec.NewDecoder file) with
      | (m, inl err) => ({| data := m |}, fs, Some err)
      | (m, inr _) => ({| data := m |}, fs, None)
      end
  end.

(** ** The lock *)

Module Locking.

Inductive method : Type := MSet | MGet | MPersist | MLoad.

(** [Lock] or [RLock]. *)
Inductive mode : Type := Exclusive | Shared.

(** The first statement of each method. *)
Definition lockMode (op : method) : mode :=
  match op with
  | MSet => Exclusive        (* db.lock.Lock() *)
  | MGet => Shared           (* db.lock.RLock() *)
  | MPersist => Shared       (* db.lock.RLock() *)
  | MLoad => Exclusive       (* db.lock.Lock() *)
  end.

(** [sync.RWMutex]: held by one writer or by any number of readers. *)
Record RWMutex : Type := mkRWMutex { writer : bool; readers : nat }.

Definition free : RWMutex := mkRWMutex false 0.

(** Taking the lock; [None] when the caller has to wait. *)
Definition acquire (md : mode) (mu : RWMutex) : option RWMutex :=
  match md with
  | Exclusive =>
      if writer mu || negb (Nat.eqb (readers mu) 0) then None
      else Some (mkRWMutex true 0)
  | Shared =>
      if writer mu then None
      else Some (mkRWMutex false (S (readers mu)))
  end.

(** The deferred [Unlock] or [RUnlock]. *)
Definition release (md : mode) (mu : RWMutex) : RWMutex :=
  match md with
  | Exclusive => mkRWMutex false (readers mu)
  | Shared => mkRWMutex (writer mu) (Nat.pred (readers mu))
  end.

(** Where a call stands: before its first statement, inside its body
    with the lock held, or returned. *)
Inductive phase : Type := Waiting | Running | Returned.

Record call : Type := mkCall { op : method; at_ : phase }.

Record system : Type := mkSystem { lock : RWMutex; calls : list call }.

Definition start (ops : list method) : system :=
  mkSystem free (map (fun o => mkCall o Waiting) ops).

(** Call number [i] takes its next step, if it can. *)
Definition step (i : nat) (s : system) : option system :=
  match calls s !! i with
  | Some (mkCall o Waiting) =>
      match acquire (lockMode o) (lock s) with
      | Some mu => Some (mkSystem mu (<[i := mkCall o Running]> (calls s)))
      | None => None
      end
  | Some (mkCall o Running) =>
      Some (mkSystem (release (lockMode o) (lock s))
                     (<[i := mkCall o Returned]> (calls s)))
  | _ => None
  end.

(** A schedule: which call moves at each step. *)
Fixpoint run (sched : list nat) (s : system) : option system :=
  match sched with
  | [] => Some s
  | i :: sched' =>
      match step i s with
      | Some s' => run sched' s'
      | None => None
      end
  end.

Definition running (s : system) (i : nat) (o : method) : Prop :=
  calls s !! i = Some (mkCall o Running).

Definition mode_eqb (a b : mode) : bool :=
  match a, b with
  | Exclusive, Exclusive | Shared, Shared => true
  | _, _ => false
  end.

(** Whether a call is inside its body holding the lock in mode [md]. *)
Definition holds (md : mode) (c : call) : nat :=
  match at_ c with
  | Running => if mode_eqb (lockMode (op c)) md then 1 else 0
  | _ => 0
  end.

(** How many calls hold the lock in mode [md]. *)
Fixpoint holders (md : mode) (cs : list call) : nat :=
  match cs with
  | [] => 0
  | c :: cs' => holds md c + holders md cs'
  end.

(** The lock word agrees with the calls that are inside their bodies. *)
Definition consistent (s : system) : Prop :=
  holders Exclusive (calls s) = (if writer (lock s) then 1 else 0)%nat
  /\ holders Shared (calls s) = readers (lock s)
  /\ (writer (lock s) = true -> readers (lock s) = 0%nat).

End Locking.

(** ** Sequences of Set calls *)

(** The store after the calls [Set(k, v)] of [calls], first to last. *)
Definition SetAll (calls : list (string * value)) (db : DataBase) : DataBase :=
  foldl (fun db kv => Set_ kv.1 kv.2 db) db calls.

(** The most recently set value of [k] in a sequence of calls, read off the
    sequence itself: the value of the last call with that key. *)
Fixpoint lastSet (k : string) (calls : list (string * value)) : option value :=
  match calls with
  | [] => None
  | (k', v) :: rest =>
      match lastSet k rest with
      | Some v' => Some v'
      | None => if decide (k' = k) then Some v else None
      end
  end.

(** ** A snapshot damaged on disk *)

(** The snapshot of a store holding [a: 1] and [b: 2], written in that
    order, and the same file with the last letter of the type name of the
    second value changed from [t] to [u]. *)
Definition goodSnapshot : list byte :=
  match Gob.valueMessage [("a", VInt 1); ("b", VInt 2)] with
  | inr msg => Gob.typeMessage ++ msg
  | inl _ => []
  end.

Definition damagedSnapshot : list byte := <[35%nat := "u"%byte]> goodSnapshot.

(** ** The program *)

(** What stops a run: [panic(err)], or the failed type assertion
    [value1.(string)]. *)
Inductive panicValue : Type :=
| PanicError (e : error)
| PanicTypeAssertion.

(** How a run of [main] ends, with what [println] wrote. *)
Inductive outcome : Type :=
| Exited (printed : string)
| Panicked (p : panicValue).

Definition newline : string := String (ascii_of_nat 10) EmptyString.

(** [main]; [iter] is the enumeration of the map the iterator comes up
    with inside [Persist]. *)
Definition main (iter : list (string * value)) (fs : FS) : outcome * FS :=
  let db := NewDataBase in
  let db := Set_ "key1" (VString "value1") db in
  let db := Set_ "key2" (VString "value2") db in
  let '(db, fs, err) := Persist iter "database.gob" db fs in
  match err with
  | Some e => (Panicked (PanicError e), fs)
  | None =>
      let '(db, fs, err) := Load "database.gob" db fs in
      match err with
      | Some e => (Panicked (PanicError e), fs)
      | None =>
          let '(value1, exists_) := Get "key2" db in
          if exists_ then
            match value1 with
            | VString s => (Exited ("key1: " ++ s ++ newline), fs)
            | _ => (Panicked PanicTypeAssertion, fs)
            end
          else (Exited ("key1 does not exist" ++ newline), fs)
      end
  end.

(** The store [main] has built when it calls [Persist]. *)
Definition mainStore : DataBase :=
  Set_ "key2" (VString "value2") (Set_ "key1" (VString "value1") NewDataBase).

(** * Properties *)

(** ** Set and Get *)

Lemma Get_Set_eq k v db : Get k (Set_ k v db) = (v, true).
Proof. unfold Get, Set_; simpl. by rewrite lookup_insert_eq. Qed.

Lemma Get_Set_ne k k' v db : k' ≠ k -> Get k (Set_ k' v db) = Get k db.
Proof. intros Hne. unfold Get, Set_; simpl. by rewrite lookup_insert_ne. Qed.

Lemma lookup_SetAll k calls db :
  data (SetAll calls db) !! k =
    match lastSet k calls with
    | Some v => Some v
    | None => data db !! k
    end.
Proof.
  revert db. induction calls as [|[k' v] rest IH]; intros db; [done|].
  unfold SetAll in *. simpl. rewrite IH. destruct (lastSet k rest) as [v'|]; [done|].
  unfold Set_; simpl. destruct (decide (k' = k)) as [->|Hne].
  - by rewrite lookup_insert_eq.
  - by rewrite lookup_insert_ne.
Qed.

Lemma lastSet_None k calls : lastSet k calls = None <-> k ∉ calls.*1.
Proof.
  induction calls as [|[k' v] rest IH]; simpl.
  - split; [intros _; apply not_elem_of_nil | done].
  - rewrite not_elem_of_cons. destruct (lastSet k rest) as [v'|].
    + split; [done|]. intros [_ Hn]. by apply IH in Hn.
    + destruct (decide (k' = k)) as [->|Hne].
      * split; [done|]. by intros [? _].
      * split; [|done]. intros _. split; [congruence|]. by apply IH.
Qed.

(** C4. After any finite sequence of [Set] calls on a store created empty,
    [Get k] returns the value of the last call that set [k] together with
    [true]; for a key that no call set it returns the not-found flag
    [false] (with the zero value). *)
Theorem Get_last_write_wins (k : string) (calls : list (string * value)) :
  Get k (SetAll calls NewDataBase) =
    match lastSet k calls with
    | Some v => (v, true)
    | None => (VNil, false)
    end
  /\ (Get k (SetAll calls NewDataBase)).2 = bool_decide (k ∈ calls.*1).
Proof.
  assert (HG : Get k (SetAll calls NewDataBase) =
               match lastSet k calls with
               | Some v => (v, true)
               | None => (VNil, false)
               end).
  { unfold Get. rewrite lookup_SetAll.
    destruct (lastSet k calls); [done|]. simpl. by rewrite lookup_empty. }
  split; [exact HG|]. rewrite HG.
  destruct (lastSet k calls) as [v|] eqn:HL; simpl; symmetry.
  - apply bool_decide_eq_true. destruct (decide (k ∈ calls.*1)); [done|].
    apply lastSet_None in n. congruence.
  - apply bool_decide_eq_false. by apply lastSet_None.
Qed.

(** C10. The empty string is a key like any other: [Set("", v)] stores the
    entry and [Get("")] then returns [(v, true)], as it does for every
    key [k]. *)
Theorem Set_Get_empty_key (v : value) (db : DataBase) :
  Get "" (Set_ "" v db) = (v, true)
  /\ forall k, Get k (Set_ k v db) = (v, true).
Proof. split; [|intros k]; apply Get_Set_eq. Qed.

(** ** The wire format *)

Module BytesFacts.
Import Bytes.

Lemma to_N_of_N x : Byte.to_N (of_N x) = x mod 256.
Proof.
  unfold of_N. destruct (Byte.of_N (x mod 256)) as [b|] eqn:E; simpl.
  - by apply Byte.to_of_N in E.
  - apply Byte.of_N_None_iff in E.
    pose proof (N.mod_upper_bound x 256). lia.
Qed.

Lemma to_N_lt b : Byte.to_N b < 256.
Proof. pose proof (Byte.to_N_bounded b). lia. Qed.

Lemma be_bytes_length n x : length (be_bytes n x) = n.
Proof.
  revert x. induction n as [|n IH]; intros x; simpl; [done|].
  rewrite length_app, IH. simpl. lia.
Qed.

Lemma be_bytes_split a b x :
  be_bytes (a + b) x = be_bytes a (x / 256 ^ N.of_nat b) ++ be_bytes b x.
Proof.
  revert x. induction b as [|b IH]; intros x.
  - rewrite Nat.add_0_r. simpl. by rewrite N.div_1_r, app_nil_r.
  - rewrite Nat.add_succ_r. simpl be_bytes. rewrite IH, <- app_assoc.
    do 2 f_equal. rewrite N.Div0.div_div. f_equal.
    rewrite Nat2N.inj_succ, N.pow_succ_r'. done.
Qed.

Lemma fold_be acc bs :
  fold_left (fun x b => x * 256 + Byte.to_N b) bs acc
  = acc * 256 ^ N.of_nat (length bs) + be_value bs.
Proof.
  unfold be_value. revert acc. induction bs as [|b bs IH]; intros acc.
  - simpl. lia.
  - cbn [fold_left length]. rewrite IH, (IH (0 * 256 + _)).
    rewrite Nat2N.inj_succ, N.pow_succ_r'. lia.
Qed.

Lemma be_value_snoc bs b :
  be_value (bs ++ [b]) = be_value bs * 256 + Byte.to_N b.
Proof. unfold be_value. by rewrite fold_left_app. Qed.

Lemma be_value_bytes n x : be_value (be_bytes n x) = x mod 256 ^ N.of_nat n.
Proof.
  revert x. induction n as [|n IH]; intros x.
  - simpl. by rewrite N.mod_1_r.
  - cbn [be_bytes]. rewrite be_value_snoc, IH, to_N_of_N.
    rewrite Nat2N.inj_succ, N.pow_succ_r'.
    rewrite (N.Div0.mod_mul_r x 256). lia.
Qed.

End BytesFacts.

Module WireFacts.
Import Bytes Gob GobDec BytesFacts.

Lemma size_bounds x : 128 <= x -> x < 2 ^ 64 -> 8 <= N.size x <= 64.
Proof.
  intros Hlo Hhi. pose proof (N.size_gt x) as Hgt.
  pose proof (N.size_le x) as Hle. split.
  - destruct (N.le_gt_cases 8 (N.size x)) as [|Hlt]; [done|].
    assert (2 ^ N.size x <= 2 ^ 7) by (apply N.pow_le_mono_r; lia).
    change (2 ^ 7) with 128 in *. lia.
  - destruct (N.le_gt_cases (N.size x) 64) as [|Hlt]; [done|].
    assert (2 ^ 65 <= 2 ^ N.size x) by (apply N.pow_le_mono_r; lia).
    rewrite N.succ_double_spec in Hle.
    change (2 ^ 65) with (2 * 2 ^ 64) in *. lia.
Qed.

Lemma readUint_encodeUint atEnd short x rest :
  x < 2 ^ 64 ->
  readUint atEnd short (encodeUint x ++ rest) = inr (x, rest).
Proof.
  intros Hx. unfold encodeUint, uint64. rewrite (N.mod_small x) by done.
  destruct (x <=? 127) eqn:Hsmall.
  - apply N.leb_le in Hsmall. simpl. rewrite to_N_of_N.
    rewrite N.mod_small by lia.
    apply N.leb_le in Hsmall. by rewrite Hsmall.
  - apply N.leb_gt in Hsmall.
    pose proof (size_bounds x ltac:(lia) Hx) as [Hs8 Hs64].
    set (bc := (64 - N.size x) / 8).
    assert (Hbc : bc <= 7).
    { unfold bc. apply N.Div0.div_le_upper_bound. lia. }
    assert (Hbits : N.size x <= 8 * (8 - bc)).
    { pose proof (N.Div0.mul_div_le (64 - N.size x) 8). fold bc in H. lia. }
    cbn [app readUint]. rewrite to_N_of_N.
    unfold uint64Size.
    rewrite (N.mod_small (256 + bc - 8)) by lia.
    replace (256 + bc - 8 <=? 127) with false by (symmetry; apply N.leb_gt; lia).
    replace (256 - (256 + bc - 8)) with (8 - bc) by lia.
    replace (8 <? 8 - bc) with false by (symmetry; apply N.ltb_ge; lia).
    assert (Hsplit : be_bytes 8 x
                     = be_bytes (N.to_nat bc) (x / 256 ^ N.of_nat (N.to_nat (8 - bc)))
                         ++ be_bytes (N.to_nat (8 - bc)) x).
    { rewrite <- be_bytes_split. f_equal. lia. }
    rewrite Hsplit, drop_app_length' by (by rewrite be_bytes_length).
    rewrite length_app, be_bytes_length.
    replace (N.of_nat (N.to_nat (8 - bc) + length rest) <? 8 - bc) with false
      by (symmetry; apply N.ltb_ge; lia).
    rewrite take_app_length', drop_app_length' by (by rewrite be_bytes_length).
    rewrite be_value_bytes, N2Nat.id, N.mod_small; [done|].
    eapply N.lt_le_trans; [apply N.size_gt|].
    change 256 with (2 ^ 8). rewrite <- N.pow_mul_r.
    apply N.pow_le_mono_r; lia.
Qed.

Lemma toInt_encode i :
  (- 2 ^ 63 <= i < 2 ^ 63)%Z ->
  let x := if (i <? 0)%Z
           then Z.lor (Z.shiftl (Z.lnot i) 1) 1
           else Z.shiftl i 1 in
  toInt (Z.to_N (x mod 2 ^ 64)%Z) = i /\ Z.to_N (x mod 2 ^ 64)%Z < 2 ^ 64.
Proof.
  intros Hi. cbv zeta.
  assert (Hx : (if (i <? 0)%Z then Z.lor (Z.shiftl (Z.lnot i) 1) 1 else Z.shiftl i 1)
               = (if (i <? 0)%Z then 2 * (- i - 1) + 1 else 2 * i)%Z).
  { destruct (i <? 0)%Z.
    - rewrite Z.shiftl_mul_pow2 by lia. unfold Z.lnot.
      replace (Z.pred (- i) * 2 ^ 1)%Z with (2 * (- i - 1))%Z by lia.
      rewrite <- Z.add_nocarry_lor.
      + done.
      + change 1%Z with (Z.ones 1) at 2. rewrite Z.land_ones by lia.
        change (2 ^ 1)%Z with 2%Z. by rewrite Z.mul_comm, Z.mod_mul.
    - rewrite Z.shiftl_mul_pow2 by lia. lia. }
  rewrite Hx. clear Hx. unfold toInt.
  destruct (i <? 0)%Z eqn:Hneg.
  - apply Z.ltb_lt in Hneg.
    rewrite Z.mod_small by lia.
    split; [|lia].
    replace (Z.to_N (2 * (- i - 1) + 1)) with (1 + 2 * Z.to_N (- i - 1)) by lia.
    rewrite N.odd_add_mul_2. simpl N.odd.
    replace ((1 + 2 * Z.to_N (- i - 1)) / 2) with (Z.to_N (- i - 1)).
    + change (N.odd 1) with true. cbv iota. unfold Z.lnot. lia.
    + apply (N.div_unique _ 2 _ 1); lia.
  - apply Z.ltb_ge in Hneg.
    rewrite Z.mod_small by lia.
    split; [|lia].
    replace (Z.to_N (2 * i)) with (2 * Z.to_N i) by lia.
    rewrite N.odd_mul, N.odd_2. simpl.
    rewrite N.mul_comm, N.div_mul by lia. lia.
Qed.

End WireFacts.

Module DecFacts.
Import Bytes Gob GobDec BytesFacts WireFacts.

Lemma encodeUint_length x : (1 <= length (encodeUint x) <= 9)%nat.
Proof.
  unfold encodeUint. destruct (uint64 x <=? 127); [simpl; lia|].
  cbn [length]. rewrite length_drop, be_bytes_length.
  generalize (N.to_nat ((64 - N.size (uint64 x)) / 8)). lia.
Qed.

Lemma of_string_length s : length (of_string s) = String.length s.
Proof.
  unfold of_string, list_byte_of_string. rewrite length_map.
  induction s; simpl; congruence.
Qed.

Lemma to_of_string s : to_string (of_string s) = s.
Proof. apply string_of_list_byte_of_string. Qed.

Lemma int_encoding_fits i :
  (- 2 ^ 63 <= i < 2 ^ 63)%Z ->
  exists x, encodeInt i = encodeUint x /\ x < 2 ^ 64 /\ toInt x = i.
Proof.
  intros Hi. destruct (toInt_encode i Hi) as [H1 H2].
  eexists. split; [reflexivity|]. split; [exact H2 | exact H1].
Qed.

Lemma decodeUint_app d rest x :
  x < 2 ^ 64 ->
  decodeUint (setBuf (encodeUint x ++ rest) d) = inr (x, setBuf rest d).
Proof.
  intros Hx. unfold decodeUint. simpl buf.
  by rewrite readUint_encodeUint.
Qed.

Lemma nextUint_app d rest x :
  x < 2 ^ 64 ->
  nextUint (setBuf (encodeUint x ++ rest) d) = inr (x, setBuf rest d).
Proof.
  intros Hx. unfold nextUint, decodeUintReader. simpl buf.
  by rewrite readUint_encodeUint.
Qed.

Lemma decodeInt_app d rest i :
  (- 2 ^ 63 <= i < 2 ^ 63)%Z ->
  decodeInt (setBuf (encodeInt i ++ rest) d) = inr (i, setBuf rest d).
Proof.
  intros Hi. destruct (int_encoding_fits i Hi) as (x & -> & Hx & Hi').
  unfold decodeInt, bind. rewrite decodeUint_app by done.
  unfold ret. by rewrite Hi'.
Qed.

Lemma nextInt_app d rest i :
  (- 2 ^ 63 <= i < 2 ^ 63)%Z ->
  nextInt (setBuf (encodeInt i ++ rest) d) = inr (i, setBuf rest d).
Proof.
  intros Hi. destruct (int_encoding_fits i Hi) as (x & -> & Hx & Hi').
  unfold nextInt, bind. rewrite nextUint_app by done.
  unfold ret. by rewrite Hi'.
Qed.

Lemma expectUint_app d rest x e :
  x < 2 ^ 64 ->
  expectUint x e (setBuf (encodeUint x ++ rest) d) = inr (tt, setBuf rest d).
Proof.
  intros Hx. unfold expectUint, bind. rewrite decodeUint_app by done.
  by rewrite decide_True.
Qed.

Lemma bufLen_setBuf d b :
  bufLen (setBuf b d) = inr (N.of_nat (length b), setBuf b d).
Proof. done. Qed.

Lemma takeBytes_app d a rest n :
  n = length a ->
  takeBytes n (setBuf (a ++ rest) d) = inr (a, setBuf rest d).
Proof.
  intros ->. unfold takeBytes. simpl buf.
  by rewrite take_app_length, drop_app_length.
Qed.

Lemma decString_app d rest s :
  N.of_nat (String.length s) < tooBig ->
  decString (setBuf (encodeString s ++ rest) d) = inr (s, setBuf rest d).
Proof.
  intros Hs. unfold tooBig in Hs.
  assert (N.of_nat (String.length s) < 2 ^ 64).
  { eapply N.lt_trans; [exact Hs|]. by vm_compute. }
  unfold decString, encodeString, bind. rewrite <- app_assoc.
  rewrite decodeUint_app by done.
  rewrite bufLen_setBuf, length_app, of_string_length.
  unfold int.
  assert (N.of_nat (String.length s) < 2 ^ 63).
  { eapply N.lt_trans; [exact Hs|]. by vm_compute. }
  replace (N.of_nat (String.length s) <? 2 ^ 63) with true
    by (symmetry; by apply N.ltb_lt).
  rewrite bool_decide_eq_false_2 by lia.
  replace (N.of_nat (String.length s + length rest) <? N.of_nat (String.length s))
    with false by (symmetry; apply N.ltb_ge; lia).
  replace (tooBig <=? N.of_nat (String.length s)) with false
    by (symmetry; apply N.leb_gt; done).
  cbn [orb]. rewrite takeBytes_app by (by rewrite Nat2N.id, of_string_length).
  unfold ret. by rewrite to_of_string.
Qed.

End DecFacts.

Module IfaceFacts.
Import Bytes Gob GobDec BytesFacts WireFacts DecFacts.

Lemma typeSequenceLoop_in_message fuel isInterface firstMessage d :
  buf d <> [] ->
  typeSequenceLoop (S fuel) isInterface firstMessage d =
    (id <- nextInt ;;
     if (0 <=? id)%Z then ret id
     else
       recvType (- id) ;;;
       len <- bufLen ;;
       (if 0 <? len
        then if isInterface then (_ <- nextUint ;; ret tt)
             else fail (GobError errExtraData)
        else ret tt) ;;;
       typeSequenceLoop fuel isInterface false) d.
Proof. intros Hne. cbn [typeSequenceLoop]. by destruct (buf d). Qed.

Lemma encodeUint_nonempty x rest : encodeUint x ++ rest <> [].
Proof.
  pose proof (encodeUint_length x). destruct (encodeUint x); simpl in *; [lia|done].
Qed.

Lemma decodeTypeSequence_value d rest isInterface i :
  (0 <= i < 2 ^ 63)%Z ->
  decodeTypeSequence isInterface (setBuf (encodeInt i ++ rest) d)
  = inr (i, setBuf rest d).
Proof.
  intros Hi. unfold decodeTypeSequence.
  rewrite typeSequenceLoop_in_message by apply encodeUint_nonempty.
  unfold bind at 1. rewrite nextInt_app by lia.
  replace (0 <=? i)%Z with true by (symmetry; apply Z.leb_le; lia).
  done.
Qed.

(** What [writeMessage] lets through is shorter than [tooBig]. *)
Lemma writeMessage_inr payload msg :
  writeMessage payload = inr msg ->
  N.of_nat (length payload) < tooBig
  /\ msg = encodeUint (N.of_nat (length payload)) ++ payload.
Proof.
  unfold writeMessage. destruct (tooBig <=? _) eqn:E; [done|].
  apply N.leb_gt in E. by intros [= <-].
Qed.

Lemma tooBig_lt_64 x : x < tooBig -> x < 2 ^ 64.
Proof. intros H. eapply N.lt_trans; [exact H|]. by vm_compute. Qed.

Lemma decodeConcrete_app d rest name id body enc v :
  encodeConcrete name id body = inr enc ->
  N.of_nat (String.length name) <= 1024 -> name <> ""%string ->
  registered name = true ->
  (0 <= id < 2 ^ 63)%Z ->
  (forall d', decodeConcrete name id (setBuf (encodeUint 0 ++ body ++ rest) d')
              = inr (v, setBuf rest d')) ->
  decodeInterface (setBuf (enc ++ rest) d) = inr (v, setBuf rest d).
Proof.
  intros Henc Hlen Hname Hreg Hid Hop. unfold encodeConcrete in Henc.
  destruct (writeMessage _) as [|msg] eqn:Hmsg; [done|].
  injection Henc as <-. apply writeMessage_inr in Hmsg as [Hbig ->].
  assert (Hn64 : N.of_nat (String.length name) < 2 ^ 64).
  { eapply N.le_lt_trans; [exact Hlen|]. by vm_compute. }
  unfold decodeInterface, encodeString. rewrite <- !app_assoc.
  unfold bind at 1. rewrite decodeUint_app by done.
  unfold bind at 1. rewrite bufLen_setBuf.
  replace (2 ^ 31 <? N.of_nat (String.length name)) with false
    by (symmetry; apply N.ltb_ge; etrans; [exact Hlen|by vm_compute]).
  rewrite length_app, of_string_length.
  replace (N.of_nat (String.length name + _) <? N.of_nat (String.length name))
    with false by (symmetry; apply N.ltb_ge; lia).
  cbn [orb]. unfold bind at 1.
  rewrite takeBytes_app by (by rewrite Nat2N.id, of_string_length).
  rewrite to_of_string.
  replace (N.of_nat (String.length name) =? 0) with false.
  2:{ symmetry. apply N.eqb_neq. destruct name; [done|simpl; lia]. }
  replace (1024 <? N.of_nat (String.length name)) with false
    by (symmetry; apply N.ltb_ge; done).
  rewrite Hreg. cbn [negb].
  unfold bind at 1. rewrite decodeTypeSequence_value by done.
  unfold bind at 1. rewrite decodeUint_app by (by apply tooBig_lt_64).
  change (of_N 0 :: body) with (encodeUint 0 ++ body).
  rewrite <- app_assoc. apply Hop.
Qed.

Lemma decodeInterface_app d rest v enc :
  goValue v ->
  encodeInterface v = inr enc ->
  decodeInterface (setBuf (enc ++ rest) d) = inr (v, setBuf rest d).
Proof.
  intros Hv Henc. destruct v as [|b|i|s|]; simpl in Henc.
  - injection Henc as <-. unfold decodeInterface.
    unfold bind at 1. rewrite decodeUint_app by done.
    unfold bind at 1. rewrite bufLen_setBuf.
    replace (N.of_nat (length rest) <? 0) with false
      by (symmetry; apply N.ltb_ge; lia).
    done.
  - eapply decodeConcrete_app; [exact Henc|done..|].
    intros d'. unfold decodeConcrete.
    rewrite decide_True by done. rewrite decide_True by done.
    unfold bind at 1. rewrite expectUint_app by done.
    unfold bind at 1. destruct b; rewrite decodeUint_app by done; done.
  - eapply decodeConcrete_app; [exact Henc|done..|].
    intros d'. unfold decodeConcrete.
    rewrite decide_False by done. rewrite decide_True by done.
    rewrite decide_True by done.
    unfold bind at 1. rewrite expectUint_app by done.
    unfold bind at 1. rewrite decodeInt_app by done. done.
  - pose proof Henc as Hsz. unfold encodeConcrete in Hsz.
    destruct (writeMessage _) as [|msg] eqn:Hmsg; [done|].
    apply writeMessage_inr in Hmsg as [Hbig _]. clear Hsz.
    eapply decodeConcrete_app; [exact Henc|done..|].
    intros d'. unfold decodeConcrete.
    rewrite decide_False by done. rewrite decide_False by done.
    rewrite decide_True by done. rewrite decide_True by done.
    unfold bind at 1. rewrite expectUint_app by done.
    unfold bind at 1. rewrite decString_app; [done|].
    cbn [length] in Hbig. unfold encodeString in Hbig.
    rewrite length_app, of_string_length in Hbig. lia.
  - done.
Qed.

End IfaceFacts.

Module MapFacts.

Lemma setMapIndex_app m es1 es2 :
  setMapIndex m (es1 ++ es2) = setMapIndex (setMapIndex m es1) es2.
Proof. apply foldl_app. Qed.

Lemma setMapIndex_union m es :
  setMapIndex m es = list_to_map (reverse es) ∪ m.
Proof.
  revert m. induction es as [|[k v] es IH]; intros m.
  - simpl. by rewrite (left_id_L ∅ (∪)).
  - cbn [setMapIndex foldl]. fold (setMapIndex (<[k:=v]> m) es).
    rewrite IH, reverse_cons, list_to_map_app. simpl.
    rewrite <- (assoc_L (∪)). f_equal.
    by rewrite <- insert_union_l, (left_id_L ∅ (∪)).
Qed.

Lemma setMapIndex_twice m es :
  setMapIndex (setMapIndex m es) es = setMapIndex m es.
Proof.
  rewrite !setMapIndex_union, (assoc_L (∪)). f_equal. apply (idemp_L (∪)).
Qed.

Lemma setMapIndex_range m m' es :
  MapRange m' es -> setMapIndex m es = m' ∪ m.
Proof.
  intros Hperm. rewrite setMapIndex_union. f_equal.
  assert (Hp : reverse es ≡ₚ map_to_list m').
  { etrans; [apply reverse_Permutation|done]. }
  rewrite <- (list_to_map_to_list m'). apply list_to_map_proper; [|done].
  rewrite Hp. apply NoDup_fst_map_to_list.
Qed.

Lemma setMapIndex_range_same m es : MapRange m es -> setMapIndex m es = m.
Proof. intros H. rewrite (setMapIndex_range m m es H). apply (idemp_L (∪)). Qed.

Lemma setMapIndex_range_empty m es : MapRange m es -> setMapIndex ∅ es = m.
Proof. intros H. rewrite (setMapIndex_range ∅ m es H). apply (right_id_L ∅ (∪)). Qed.

End MapFacts.

Module StreamFacts.
Import Bytes Gob GobDec BytesFacts WireFacts DecFacts IfaceFacts MapFacts.

Lemma encodeInterface_nonempty v enc :
  encodeInterface v = inr enc -> (1 <= length enc)%nat.
Proof.
  assert (Hc : forall name id body,
             encodeConcrete name id body = inr enc -> (1 <= length enc)%nat).
  { intros name id body. unfold encodeConcrete.
    destruct (writeMessage _); [done|]. intros [= <-].
    unfold encodeString. rewrite !length_app.
    pose proof (encodeUint_length (N.of_nat (String.length name))). lia. }
  destruct v; simpl; eauto; [|done].
  intros [= <-]. apply encodeUint_length.
Qed.

Lemma encodeEntries_length es body :
  encodeEntries es = inr body -> (length es <= length body)%nat.
Proof.
  revert body. induction es as [|[k v] es IH]; intros body; simpl; [lia|].
  destruct (encodeInterface v) as [|bv] eqn:Hv; [done|].
  destruct (encodeEntries es) as [|tl] eqn:Hes; [done|].
  intros [= <-]. rewrite !length_app.
  apply encodeInterface_nonempty in Hv. specialize (IH tl eq_refl). lia.
Qed.

Lemma decodeEntries_app d rest m es body :
  Forall goValue es.*2 ->
  encodeEntries es = inr body ->
  N.of_nat (length body) < tooBig ->
  decodeEntries (length es) m (setBuf (body ++ rest) d)
  = (setMapIndex m es, inr (setBuf rest d)).
Proof.
  revert m body. induction es as [|[k v] es IH]; intros m body Hgo Henc Hbig.
  - injection Henc as <-. done.
  - simpl in Henc.
    destruct (encodeInterface v) as [|bv] eqn:Hv; [done|].
    destruct (encodeEntries es) as [|tl] eqn:Hes; [done|].
    injection Henc as <-. apply Forall_cons in Hgo as [Hgv Hgo].
    rewrite !length_app in Hbig. unfold encodeString in Hbig.
    rewrite length_app, of_string_length in Hbig.
    cbn [length decodeEntries]. rewrite <- !app_assoc.
    rewrite decString_app by lia.
    rewrite (decodeInterface_app _ _ v bv) by done.
    rewrite IH by (done || lia). done.
Qed.

Lemma recvMessage_app R payload rest W :
  N.of_nat (length payload) < tooBig ->
  recvMessage (mkDecoder (encodeUint (N.of_nat (length payload)) ++ payload ++ rest) R W)
  = inr (tt, mkDecoder rest payload W).
Proof.
  intros Hbig. unfold recvMessage, decodeUintReader. cbn [r wireType].
  rewrite readUint_encodeUint by (by apply tooBig_lt_64).
  replace (tooBig <=? N.of_nat (length payload)) with false
    by (symmetry; by apply N.leb_gt).
  rewrite length_app.
  replace (N.of_nat (length payload + length rest) <? N.of_nat (length payload))
    with false by (symmetry; apply N.ltb_ge; lia).
  by rewrite Nat2N.id, take_app_length, drop_app_length.
Qed.

Lemma typeSequenceLoop_next_message fuel isInterface firstMessage d d1 :
  buf d = [] ->
  recvMessage d = inr (tt, d1) ->
  typeSequenceLoop (S fuel) isInterface firstMessage d =
    (id <- nextInt ;;
     if (0 <=? id)%Z then ret id
     else
       recvType (- id) ;;;
       len <- bufLen ;;
       (if 0 <? len
        then if isInterface then (_ <- nextUint ;; ret tt)
             else fail (GobError errExtraData)
        else ret tt) ;;;
       typeSequenceLoop fuel isInterface false) d1.
Proof. intros Hb Hr. cbn [typeSequenceLoop]. by rewrite Hb, Hr. Qed.

(** One round of the loop on the type message: the map type is on
    record and the message is used up. *)
Lemma typeSequenceLoop_typeMessage fuel rest :
  typeSequenceLoop (S fuel) false true (NewDecoder (typeMessage ++ rest))
  = typeSequenceLoop fuel false false (mkDecoder rest [] mapTypes).
Proof.
  pose proof (recvMessage_app [] (encodeInt (- mapTypeId)
                ++ mapDescriptor mapTypeId tString tInterface) rest ∅) as Hrecv.
  rewrite (typeSequenceLoop_next_message fuel false true
             (NewDecoder (typeMessage ++ rest)) _ eq_refl
             (Hrecv ltac:(by vm_compute))).
  generalize (typeSequenceLoop fuel false false). intros k.
  by vm_compute.
Qed.

Lemma valueMessage_inr es msg :
  valueMessage es = inr msg ->
  exists body,
    encodeEntries es = inr body
    /\ let payload := encodeInt mapTypeId ++ encodeUint 0
                        ++ encodeUint (N.of_nat (length es)) ++ body in
       N.of_nat (length payload) < tooBig
       /\ msg = encodeUint (N.of_nat (length payload)) ++ payload.
Proof.
  unfold valueMessage, encodeMap.
  destruct (encodeEntries es) as [|body]; [done|].
  intros H. apply writeMessage_inr in H. by exists body.
Qed.

Lemma decodeValue_map tail m es body rest :
  Forall goValue es.*2 ->
  encodeEntries es = inr body ->
  N.of_nat (length body) < tooBig ->
  decodeValue mapTypeId m
    (mkDecoder tail (encodeUint 0 ++ encodeUint (N.of_nat (length es)) ++ body ++ rest)
               mapTypes)
  = (setMapIndex m es, inr (mkDecoder tail rest mapTypes)).
Proof.
  intros Hgo Henc Hbig. unfold decodeValue.
  rewrite bool_decide_eq_true_2 by done. cbn [negb].
  pose proof (encodeEntries_length _ _ Henc) as Hlen.
  assert (Hn : N.of_nat (length es) < tooBig) by lia.
  set (d0 := mkDecoder tail [] mapTypes).
  change (mkDecoder tail ?b mapTypes) with (setBuf b d0).
  unfold bind. rewrite expectUint_app by done.
  rewrite decodeUint_app by (by apply tooBig_lt_64).
  unfold int.
  replace (N.of_nat (length es) <? 2 ^ 63) with true.
  2:{ symmetry. apply N.ltb_lt. eapply N.lt_trans; [exact Hn|by vm_compute]. }
  rewrite nat_N_Z, Nat2Z.id.
  by rewrite decodeEntries_app.
Qed.

Lemma Decode_stream m es msg tail :
  Forall goValue es.*2 ->
  valueMessage es = inr msg ->
  Decode m (NewDecoder (typeMessage ++ msg ++ tail))
  = (setMapIndex m es, inr (mkDecoder tail [] mapTypes)).
Proof.
  intros Hgo Hmsg.
  apply valueMessage_inr in Hmsg as (body & Henc & Hbig & ->).
  unfold Decode, decodeTypeSequence. cbn [NewDecoder buf r length Nat.add].
  rewrite length_app. change (length typeMessage) with 15%nat.
  cbn [Nat.add]. rewrite typeSequenceLoop_typeMessage.
  rewrite <- (app_assoc (encodeUint _) _ tail).
  erewrite typeSequenceLoop_next_message;
    [|reflexivity|by apply recvMessage_app].
  set (d0 := mkDecoder tail [] mapTypes).
  change (mkDecoder tail ?b mapTypes) with (setBuf b d0).
  unfold bind at 1. rewrite nextInt_app by done.
  change (0 <=? mapTypeId)%Z with true. cbv iota. unfold ret.
  rewrite <- (app_nil_r body) at 1.
  unfold setBuf, d0. cbn [r wireType].
  apply decodeValue_map; [done..|].
  rewrite !length_app in Hbig. lia.
Qed.

(** Whatever the bytes, decoding treats the map as a write-only target:
    the pairs it sets and the way it ends do not depend on what the map
    held. *)
Lemma decodeEntries_blind n d :
  exists es res, forall m, decodeEntries n m d = (setMapIndex m es, res).
Proof.
  revert d. induction n as [|n IH]; intros d.
  - by exists [], (inr d).
  - cbn [decodeEntries]. destruct (decString d) as [e|[key d1]].
    { by exists [], (inl e). }
    destruct (decodeInterface d1) as [e|[elem d2]].
    { by exists [], (inl e). }
    destruct (IH d2) as (es & res & Hes).
    exists ((key, elem) :: es), res. intros m. by rewrite Hes.
Qed.

Lemma Decode_blind d :
  exists es res, forall m, Decode m d = (setMapIndex m es, res).
Proof.
  unfold Decode. destruct (decodeTypeSequence false d) as [e|[id d1]].
  { by exists [], (inl e). }
  unfold decodeValue. destruct (negb _).
  { by exists [], (inl (GobError errWrongType)). }
  destruct ((_ ;;; _) d1) as [e|[x d2]].
  { by exists [], (inl e). }
  apply decodeEntries_blind.
Qed.

End StreamFacts.

Module FuelFacts.
Import Gob GobDec.
Local Open Scope nat_scope.

Lemma readUint_uses atEnd short src :
  match readUint atEnd short src with
  | inl e => e = atEnd \/ e = short \/ e = GobError errBadUint
  | inr (_, rest) => length rest < length src
  end.
Proof.
  destruct src as [|b rest]; simpl; [auto|].
  destruct (_ <=? _)%N; [lia|].
  destruct (_ <? _)%N; [auto|]. destruct (_ <? _)%N; [auto|].
  rewrite length_drop. lia.
Qed.

Lemma within_weaken {A} (m : Dec A) : within true m -> within false m.
Proof.
  intros H d. specialize (H d). destruct (m d) as [e|[a d']]; [done|].
  destruct H. split; [done|lia].
Qed.

Lemma within_ret {A} (a : A) : within false (ret a).
Proof. intros d. simpl. split; [done|lia]. Qed.

Lemma within_fail {A} e : e <> GobError errSpin -> within false (@fail A e).
Proof. by intros He d. Qed.

Lemma within_bind {A B} s1 s2 (m : Dec A) (k : A -> Dec B) :
  within s1 m -> (forall a, within s2 (k a)) -> within (s1 || s2) (bind m k).
Proof.
  intros Hm Hk d. unfold bind. specialize (Hm d).
  destruct (m d) as [e|[a d1]]; [done|]. destruct Hm as [Hr1 Hb1].
  specialize (Hk a d1). destruct (k a d1) as [e|[b d2]]; [done|].
  destruct Hk as [Hr2 Hb2]. split; [congruence|].
  destruct s1, s2; simpl in *; lia.
Qed.

Lemma within_decodeUint : within true decodeUint.
Proof.
  intros d. unfold decodeUint.
  pose proof (readUint_uses EOF (GobError errUintDataLength) (buf d)) as H.
  destruct (readUint _ _ _) as [e|[x rest]].
  - by destruct H as [->|[->| ->]].
  - simpl. split; [done|lia].
Qed.

Lemma within_nextUint : within true nextUint.
Proof.
  intros d. unfold nextUint, decodeUintReader.
  pose proof (readUint_uses EOF ErrUnexpectedEOF (buf d)) as H.
  destruct (readUint _ _ _) as [e|[x rest]].
  - by destruct H as [->|[->| ->]].
  - simpl. split; [done|lia].
Qed.

Lemma within_decodeInt : within true decodeInt.
Proof.
  apply (within_bind true false); [apply within_decodeUint|].
  intros x. apply within_ret.
Qed.

Lemma within_nextInt : within true nextInt.
Proof.
  apply (within_bind true false); [apply within_nextUint|].
  intros x. apply within_ret.
Qed.

Lemma within_expectUint x e :
  e <> GobError errSpin -> within true (expectUint x e).
Proof.
  intros He. apply (within_bind true false); [apply within_decodeUint|].
  intros y. destruct (decide _); [apply within_ret|by apply within_fail].
Qed.

Ltac within_chain :=
  first
    [ apply within_weaken, (within_bind true false);
      [ first [ by apply within_expectUint | apply within_decodeInt ]
      | intros ?; within_chain ]
    | intros ?; simpl; split; [ done | lia ] ].

Lemma within_recvType id : within false (recvType id).
Proof.
  intros d. unfold recvType. destruct (_ || _); [done|].
  revert d. within_chain.
Qed.

Lemma recvMessage_uses d :
  match recvMessage d with
  | inl e => e <> GobError errSpin
  | inr (_, d') => length (buf d') + length (r d') < length (r d)
  end.
Proof.
  unfold recvMessage, decodeUintReader.
  pose proof (readUint_uses EOF ErrUnexpectedEOF (r d)) as H.
  destruct (readUint _ _ _) as [e|[x rest]].
  - by destruct H as [->|[->| ->]].
  - destruct (_ <=? _)%N; [done|]. destruct (_ <? _)%N eqn:Hlt; [done|].
    apply N.ltb_ge in Hlt. simpl. rewrite length_take, length_drop. lia.
Qed.

(** The loop always has fuel left when it needs it. *)
Lemma typeSequenceLoop_fuel fuel isInterface firstMessage d :
  length (buf d) + length (r d) < fuel ->
  typeSequenceLoop fuel isInterface firstMessage d <> inl (GobError errSpin).
Proof.
  revert firstMessage d. induction fuel as [|fuel IH]; intros fm d Hfuel; [lia|].
  cbn [typeSequenceLoop].
  set (received := match buf d with [] => _ | _ => _ end).
  assert (Hrec : match received with
                 | inl e => e <> GobError errSpin
                 | inr (_, d1) => length (buf d1) + length (r d1) < S fuel
                 end).
  { unfold received. destruct (buf d) as [|b bs] eqn:Hb.
    - pose proof (recvMessage_uses d) as H.
      destruct (recvMessage d) as [e|[u d1]].
      + destruct e; try done. by destruct fm.
      + simpl in Hfuel. lia.
    - by rewrite Hb. }
  destruct received as [e|[u d1]]; [congruence|].
  unfold bind at 1. pose proof (within_nextInt d1) as Hn.
  destruct (nextInt d1) as [e|[id d2]]; [congruence|]. destruct Hn as [Hr2 Hb2].
  destruct (0 <=? id)%Z; [done|].
  unfold bind at 1. pose proof (within_recvType (- id) d2) as Ht.
  destruct (recvType (- id) d2) as [e|[u3 d3]]; [congruence|]. destruct Ht as [Hr3 Hb3].
  unfold bind at 1. unfold bufLen at 1.
  unfold bind at 1.
  set (skip := if (0 <? N.of_nat (length (buf d3)))%N then _ else _).
  assert (Hskip : within false skip).
  { unfold skip. destruct (_ <? _)%N; [|apply within_ret].
    destruct isInterface; [|by apply within_fail].
    apply (within_bind false false); [apply within_weaken, within_nextUint|].
    intros _. apply within_ret. }
  specialize (Hskip d3).
  destruct (skip d3) as [e|[u4 d4]]; [congruence|]. destruct Hskip as [Hr4 Hb4].
  apply IH. simpl in *. rewrite Hr4, Hr3, Hr2. lia.
Qed.

Lemma decodeTypeSequence_fuel isInterface d :
  decodeTypeSequence isInterface d <> inl (GobError errSpin).
Proof. unfold decodeTypeSequence. apply typeSequenceLoop_fuel. lia. Qed.

End FuelFacts.

(** ** Persist and Load *)

Import MapFacts StreamFacts.

Lemma Encode_new_file iter p fs :
  Encode iter p (<[p := Regular []]> fs) =
    match Gob.valueMessage iter with
    | inl e => (<[p := Regular Gob.typeMessage]> fs, Some e)
    | inr msg => (<[p := Regular (Gob.typeMessage ++ msg)]> fs, None)
    end.
Proof.
  unfold Encode, file_Write. rewrite lookup_insert_eq, insert_insert_eq.
  destruct (Gob.valueMessage iter) as [e|msg]; [done|].
  by rewrite lookup_insert_eq, insert_insert_eq.
Qed.

Lemma Persist_creatable iter p db fs :
  fs !! p <> Some NoAccess ->
  Persist iter p db fs =
    match Gob.valueMessage iter with
    | inl e => (db, <[p := Regular Gob.typeMessage]> fs, Some e)
    | inr msg => (db, <[p := Regular (Gob.typeMessage ++ msg)]> fs, None)
    end.
Proof.
  intros Hp. unfold Persist, os_Create.
  assert (Hc : match fs !! p with
               | Some NoAccess => inl (PathError EACCES)
               | _ => inr (<[p := Regular []]> fs)
               end = (inr (<[p := Regular []]> fs) : error + FS)).
  { destruct (fs !! p) as [[c|]|]; done. }
  rewrite Hc, Encode_new_file. by destruct (Gob.valueMessage iter).
Qed.

(** A save that reports no error has written the type message and the
    value message, and nothing else, to the file. *)
Lemma Persist_success iter p db fs db' fs' :
  Persist iter p db fs = (db', fs', None) ->
  exists msg, Gob.valueMessage iter = inr msg
    /\ db' = db /\ fs' = <[p := Regular (Gob.typeMessage ++ msg)]> fs.
Proof.
  intros H.
  assert (Hp : fs !! p <> Some NoAccess).
  { intros Hp. unfold Persist, os_Create in H. by rewrite Hp in H. }
  rewrite Persist_creatable in H by done.
  destruct (Gob.valueMessage iter) as [e|msg]; [done|].
  injection H as <- <-. by exists msg.
Qed.

Lemma Load_file p db fs file :
  fs !! p = Some (Regular file) ->
  Load p db fs =
    let '(m, res) := GobDec.Decode (data db) (GobDec.NewDecoder file) in
    ({| data := m |}, fs, match res with inl e => Some e | inr _ => None end).
Proof.
  intros Hp. unfold Load, os_Open. rewrite Hp.
  by destruct (GobDec.Decode _ _) as [m [e|d]].
Qed.

(** Loading a snapshot lays the saved entries over whatever the store
    holds. *)
Lemma Load_snapshot iter p saved fs fs' db' other :
  MapRange (data saved) iter ->
  map_Forall (fun _ v => goValue v) (data saved) ->
  Persist iter p saved fs = (db', fs', None) ->
  Load p other fs' = ({| data := data saved ∪ data other |}, fs', None).
Proof.
  intros Hiter Hgo Hsave.
  apply Persist_success in Hsave as (msg & Hmsg & -> & ->).
  rewrite (Load_file _ _ _ (Gob.typeMessage ++ msg)) by apply lookup_insert_eq.
  rewrite <- (app_nil_r msg).
  rewrite (Decode_stream _ iter) by
    (try done; rewrite Hiter; apply Forall_fmap, Forall_forall;
     intros [k v] Hkv; apply elem_of_map_to_list in Hkv; by apply Hgo in Hkv).
  by rewrite (setMapIndex_range _ (data saved)).
Qed.

Lemma Load_fixed_point p db fs :
  Load p (Load p db fs).1.1 (Load p db fs).1.2 = Load p db fs.
Proof.
  unfold Load. destruct (os_Open fs p) as [e|file] eqn:Hopen; simpl.
  - by rewrite Hopen.
  - destruct (Decode_blind (GobDec.NewDecoder file)) as (es & res & Hd).
    rewrite (Hd (data db)). destruct res as [e|d]; simpl;
      by rewrite Hopen, Hd, setMapIndex_twice.
Qed.

(** C6. Idempotence of load: with the file at [p] written by [Persist] and
    left as it is, a second [Load] of [p] right after a first one leaves
    the store with the mapping the first one gave it (and ends the same
    way, with the file system untouched). *)
Theorem Load_twice_same iter p saved fs0 db :
  let fs := (Persist iter p saved fs0).1.2 in
  let first := Load p db fs in
  let second := Load p first.1.1 first.1.2 in
  data second.1.1 = data first.1.1 /\ second = first.
Proof.
  cbv zeta. by rewrite Load_fixed_point.
Qed.

(** C7. [Persist] does not change the store: whatever the path and
    whether the call reports an error or not, the store after the call is
    the store before it. *)
Theorem Persist_leaves_store iter p db fs :
  (Persist iter p db fs).1.1 = db.
Proof.
  unfold Persist. destruct (os_Create fs p) as [e|fs1]; [done|].
  by destruct (Encode iter p fs1).
Qed.

(** C5. [Load] on a path at which there is no file returns a path error,
    which is an [IOError], and leaves the store (and the file system) as
    it was. *)
Theorem Load_missing_file p db fs :
  fs !! p = None ->
  Load p db fs = (db, fs, Some (PathError ENOENT))
  /\ classify (PathError ENOENT) = IOError.
Proof. intros Hp. unfold Load, os_Open. by rewrite Hp. Qed.

Lemma Load_missing_file_witness :
  Load "gone.gob" (Set_ "k" (VInt 1) NewDataBase) ∅
  = (Set_ "k" (VInt 1) NewDataBase, ∅, Some (PathError ENOENT))
  /\ classify (PathError ENOENT) = IOError.
Proof. apply Load_missing_file. reflexivity. Defined.

(** C9. When [Persist] goes through, the file at the path holds exactly
    the encoding of the store's mapping: the type message followed by the
    value message, whether the file was absent or present with other
    content before; decoding it gives the whole mapping and leaves no byte
    unread. *)
Theorem Persist_writes_snapshot iter p db fs msg :
  MapRange (data db) iter ->
  map_Forall (fun _ v => goValue v) (data db) ->
  fs !! p <> Some NoAccess ->
  Gob.valueMessage iter = inr msg ->
  Persist iter p db fs
    = (db, <[p := Regular (Gob.typeMessage ++ msg)]> fs, None)
  /\ GobDec.Decode ∅ (GobDec.NewDecoder (Gob.typeMessage ++ msg))
     = (data db, inr (mkDecoder [] [] GobDec.mapTypes)).
Proof.
  intros Hiter Hgo Hp Hmsg. split.
  - by rewrite Persist_creatable, Hmsg.
  - assert (HF : Forall goValue iter.*2).
    { rewrite Hiter. apply Forall_fmap, Forall_forall.
      intros [k v] Hkv. apply elem_of_map_to_list in Hkv. by apply Hgo in Hkv. }
    rewrite <- (app_nil_r msg), (Decode_stream _ iter _ _ HF Hmsg).
    by rewrite (setMapIndex_range_empty (data db) iter Hiter).
Qed.

Lemma Persist_writes_snapshot_witness :
  let db := SetAll [("a", VInt 1); ("b", VString "two")] NewDataBase in
  let fs : FS := {[ "database.gob" := Regular (Gob.typeMessage ++ Gob.typeMessage ++ Gob.typeMessage ++ Gob.typeMessage ++ Gob.typeMessage) ]} in
  exists msg,
    Persist (map_to_list (data db)) "database.gob" db fs
      = (db, <["database.gob" := Regular (Gob.typeMessage ++ msg)]> fs, None)
    /\ GobDec.Decode ∅ (GobDec.NewDecoder (Gob.typeMessage ++ msg))
       = (data db, inr (mkDecoder [] [] GobDec.mapTypes)).
Proof.
  eexists. apply Persist_writes_snapshot.
  - unfold MapRange. reflexivity.
  - apply (bool_decide_unpack _). vm_compute. exact I.
  - vm_compute. discriminate.
  - vm_compute. reflexivity.
Defined.

(** C1, evaluated. After [Set("a",1)], [Set("b",2)], [Persist(p)],
    [Set("c",3)], [Load(p)] the program still answers [Get("c")] with
    [(3, true)]: the store holds [a], [b] and [c], because the decoder
    sets the decoded pairs in the map that is in use. *)
Theorem Load_keeps_later_key :
  let db0 := SetAll [("a", VInt 1); ("b", VInt 2)] NewDataBase in
  let saved := Persist (map_to_list (data db0)) "p" db0 ∅ in
  let loaded := Load "p" (Set_ "c" (VInt 3) saved.1.1) saved.1.2 in
  saved.2 = None /\ loaded.2 = None
  /\ Get "c" loaded.1.1 = (VInt 3, true)
  /\ data loaded.1.1 = {[ "a" := VInt 1; "b" := VInt 2; "c" := VInt 3 ]}
  /\ data loaded.1.1 <> data db0.
Proof. vm_compute. repeat split; try reflexivity. discriminate. Qed.

(** C2, evaluated. [Load] of the damaged snapshot fails at the second
    entry with a decoding error, and the first entry has already replaced
    the old value of [a]: the store is not what it was before the call. *)
Theorem Load_failure_keeps_decoded_entry :
  let db := Set_ "a" (VString "old") NewDataBase in
  let loaded := Load "p" db {[ "p" := Regular damagedSnapshot ]} in
  loaded.2 = Some (GobError errNameNotRegistered)
  /\ classify (GobError errNameNotRegistered) = DeserializationError
  /\ Get "a" db = (VString "old", true)
  /\ Get "a" loaded.1.1 = (VInt 1, true)
  /\ data loaded.1.1 <> data db.
Proof. vm_compute. repeat split; try reflexivity. discriminate. Qed.

(** C3, evaluated. A store holding only [a] is saved, the file is loaded
    into another store that holds [c]: both calls succeed and the second
    store ends with [a] and [c], not with the mapping that was saved. *)
Theorem Load_into_other_store_merges :
  let a := Set_ "a" (VInt 1) NewDataBase in
  let b := Set_ "c" (VInt 3) NewDataBase in
  let saved := Persist (map_to_list (data a)) "p" a ∅ in
  let loaded := Load "p" b saved.1.2 in
  saved.2 = None /\ loaded.2 = None
  /\ data a = {[ "a" := VInt 1 ]}
  /\ data loaded.1.1 = {[ "a" := VInt 1; "c" := VInt 3 ]}
  /\ data loaded.1.1 <> data a.
Proof. vm_compute. repeat split; try reflexivity. discriminate. Qed.

(** Saving and then loading gives back the saved mapping on the store that
    was saved and on a store just created. *)
Lemma Persist_Load_same_store iter p db fs db' fs' :
  MapRange (data db) iter ->
  map_Forall (fun _ v => goValue v) (data db) ->
  Persist iter p db fs = (db', fs', None) ->
  Load p db' fs' = (db, fs', None).
Proof.
  intros Hiter Hgo Hsave.
  destruct (Persist_success _ _ _ _ _ _ Hsave) as (msg & _ & -> & _).
  rewrite (Load_snapshot _ _ _ _ _ _ _ Hiter Hgo Hsave).
  rewrite (idemp_L (∪)). by destruct db.
Qed.

Lemma Persist_Load_new_store iter p db fs db' fs' :
  MapRange (data db) iter ->
  map_Forall (fun _ v => goValue v) (data db) ->
  Persist iter p db fs = (db', fs', None) ->
  Load p NewDataBase fs' = (db, fs', None).
Proof.
  intros Hiter Hgo Hsave.
  rewrite (Load_snapshot _ _ _ _ _ _ _ Hiter Hgo Hsave).
  simpl. rewrite (right_id_L ∅ (∪)). by destruct db.
Qed.

(** ** Further properties of the store *)

(** X1. After any sequence of [Set] calls on any store, [Get k] returns the
    value of the last call that set [k], with [true]; for a key none of
    the calls set it returns what [Get k] returned before the calls. *)
Theorem Get_after_Sets_on_any_store (k : string) (calls : list (string * value))
    (db : DataBase) :
  Get k (SetAll calls db) =
    match lastSet k calls with
    | Some v => (v, true)
    | None => Get k db
    end.
Proof.
  unfold Get. rewrite lookup_SetAll. by destruct (lastSet k calls).
Qed.

(** X2. Two [Set] calls on one key leave the store as the second call
    alone would. *)
Theorem Set_overwrites (k : string) (v1 v2 : value) (db : DataBase) :
  Set_ k v2 (Set_ k v1 db) = Set_ k v2 db.
Proof. unfold Set_; simpl. by rewrite insert_insert_eq. Qed.

(** X3. [Set] calls on different keys can be swapped: the store ends
    the same. *)
Theorem Set_commutes (k1 k2 : string) (v1 v2 : value) (db : DataBase) :
  k1 <> k2 ->
  Set_ k1 v1 (Set_ k2 v2 db) = Set_ k2 v2 (Set_ k1 v1 db).
Proof. intros Hne. unfold Set_; simpl. f_equal. by apply insert_insert_ne. Qed.

Lemma Set_commutes_witness :
  Set_ "a" (VInt 1) (Set_ "b" VNil NewDataBase)
  = Set_ "b" VNil (Set_ "a" (VInt 1) NewDataBase).
Proof. apply Set_commutes. discriminate. Defined.

(** ** Further properties of Persist *)

(** X4. When the path cannot be created, [Persist] returns the path
    error of [os.Create] (an [IOError]) and changes neither the store nor
    the file system. *)
Theorem Persist_no_access iter p db fs :
  fs !! p = Some NoAccess ->
  Persist iter p db fs = (db, fs, Some (PathError EACCES))
  /\ classify (PathError EACCES) = IOError.
Proof. intros Hp. unfold Persist, os_Create. by rewrite Hp. Qed.

Lemma Persist_no_access_witness :
  Persist [("k", VInt 1)] "locked" (Set_ "k" (VInt 1) NewDataBase)
          {[ "locked" := NoAccess ]}
  = (Set_ "k" (VInt 1) NewDataBase, {[ "locked" := NoAccess ]},
     Some (PathError EACCES))
  /\ classify (PathError EACCES) = IOError.
Proof. apply Persist_no_access. reflexivity. Defined.

(** X6. The file after two saves to one path is the file the second save
    alone would have written, and the second save returns the same
    result: nothing of the first save is left. *)
Theorem Persist_last_save_wins iter1 iter2 p db1 db2 fs :
  fs !! p <> Some NoAccess ->
  let fs1 := (Persist iter1 p db1 fs).1.2 in
  (Persist iter2 p db2 fs1).1.2 = (Persist iter2 p db2 fs).1.2
  /\ (Persist iter2 p db2 fs1).2 = (Persist iter2 p db2 fs).2.
Proof.
  intros Hp. cbv zeta.
  assert (H1 : exists file, (Persist iter1 p db1 fs).1.2 = <[p := Regular file]> fs).
  { rewrite Persist_creatable by done. destruct (Gob.valueMessage iter1); by eexists. }
  destruct H1 as [file ->].
  rewrite (Persist_creatable iter2 p db2 (<[p := _]> fs))
    by (by rewrite lookup_insert_eq).
  rewrite (Persist_creatable iter2 p db2 fs) by done.
  destruct (Gob.valueMessage iter2); simpl; by rewrite insert_insert_eq.
Qed.

Lemma Persist_last_save_wins_witness :
  let fs : FS := ∅ in
  let fs1 := (Persist [("a", VString "first")] "p"
                (Set_ "a" (VString "first") NewDataBase) fs).1.2 in
  (Persist [("b", VInt 2)] "p" (Set_ "b" (VInt 2) NewDataBase) fs1).1.2
  = (Persist [("b", VInt 2)] "p" (Set_ "b" (VInt 2) NewDataBase) fs).1.2
  /\ (Persist [("b", VInt 2)] "p" (Set_ "b" (VInt 2) NewDataBase) fs1).2
     = (Persist [("b", VInt 2)] "p" (Set_ "b" (VInt 2) NewDataBase) fs).2.
Proof.
  apply (Persist_last_save_wins [("a", VString "first")] [("b", VInt 2)] "p"
           (Set_ "a" (VString "first") NewDataBase)
           (Set_ "b" (VInt 2) NewDataBase) ∅).
  vm_compute. discriminate.
Defined.

Module SaveFacts.
Import Gob GobDec.

Lemma writeMessage_error payload e :
  writeMessage payload = inl e -> classify e = SerializationError.
Proof. unfold writeMessage. destruct (_ <=? _); [|done]. by intros [= <-]. Qed.

Lemma encodeInterface_error v e :
  encodeInterface v = inl e -> classify e = SerializationError.
Proof.
  assert (Hc : forall name id body,
             encodeConcrete name id body = inl e -> classify e = SerializationError).
  { intros name id body. unfold encodeConcrete.
    destruct (writeMessage _) as [e'|] eqn:Hw; [|done].
    intros [= <-]. by eapply writeMessage_error. }
  destruct v; simpl; eauto; [done|]. by intros [= <-].
Qed.

Lemma encodeEntries_error es e :
  encodeEntries es = inl e -> classify e = SerializationError.
Proof.
  induction es as [|[k v] es IH]; simpl; [done|].
  destruct (encodeInterface v) as [e'|bv] eqn:Hv.
  - intros [= <-]. by eapply encodeInterface_error.
  - destruct (encodeEntries es) as [e'|tl]; [|done]. intros [= <-]. by apply IH.
Qed.

Lemma encodeEntries_unregistered es :
  VUnregistered ∈ es.*2 -> exists e, encodeEntries es = inl e.
Proof.
  induction es as [|[k v] es IH]; simpl; [by intros ?%elem_of_nil|].
  intros [<-|Hin]%elem_of_cons; simpl; [by eexists|].
  destruct (encodeInterface v); [by eexists|].
  destruct (IH Hin) as [e ->]. by eexists.
Qed.

Lemma valueMessage_unregistered es :
  VUnregistered ∈ es.*2 ->
  exists e, valueMessage es = inl e /\ classify e = SerializationError.
Proof.
  intros Hin. destruct (encodeEntries_unregistered es Hin) as [e He].
  exists e. unfold valueMessage, encodeMap. rewrite He. split; [done|].
  by eapply encodeEntries_error.
Qed.

Lemma Decode_type_message_only m :
  Decode m (NewDecoder typeMessage) = (m, inl ErrUnexpectedEOF).
Proof. by vm_compute. Qed.

End SaveFacts.

(** X7. When the store holds a value of a type that is not registered,
    [Persist] fails with an encoding error in whatever order the map is
    walked, and leaves the store as it was; the file has been cut by
    [os.Create] all the same, so a [Load] of that path now fails with a
    decoding error and changes nothing. *)
Theorem Persist_unregistered_value iter p db fs k :
  MapRange (data db) iter ->
  data db !! k = Some VUnregistered ->
  fs !! p <> Some NoAccess ->
  exists e fs',
    Persist iter p db fs = (db, fs', Some e)
    /\ classify e = SerializationError
    /\ forall other, exists e',
         Load p other fs' = (other, fs', Some e')
         /\ classify e' = DeserializationError.
Proof.
  intros Hiter Hk Hp.
  assert (Hin : VUnregistered ∈ iter.*2).
  { apply list_elem_of_fmap. exists (k, VUnregistered). split; [done|].
    rewrite Hiter. by apply elem_of_map_to_list. }
  destruct (SaveFacts.valueMessage_unregistered iter Hin) as (e & He & Hc).
  exists e, (<[p := Regular Gob.typeMessage]> fs).
  rewrite Persist_creatable, He by done. do 2 (split; [done|]).
  intros other. exists ErrUnexpectedEOF.
  rewrite (Load_file _ _ _ Gob.typeMessage) by apply lookup_insert_eq.
  rewrite SaveFacts.Decode_type_message_only. by destruct other.
Qed.

Lemma Persist_unregistered_value_witness :
  let db := Set_ "f" VUnregistered (Set_ "a" (VInt 1) NewDataBase) in
  let fs : FS := {[ "p" := Regular goodSnapshot ]} in
  exists e fs',
    Persist (map_to_list (data db)) "p" db fs = (db, fs', Some e)
    /\ classify e = SerializationError
    /\ forall other, exists e',
         Load "p" other fs' = (other, fs', Some e')
         /\ classify e' = DeserializationError.
Proof.
  apply (Persist_unregistered_value _ "p" _ _ "f").
  - unfold MapRange. reflexivity.
  - reflexivity.
  - vm_compute. discriminate.
Defined.

(** X8. For a store whose values are nil, [bool], [int] or [string]
    values: after a [Persist] that went through, [Load] of the same path
    on the same store succeeds and leaves the store as it was: every [Get]
    answers as before. *)
Theorem Persist_then_Load_same_store iter p db fs db' fs' :
  MapRange (data db) iter ->
  map_Forall (fun _ v => goValue v) (data db) ->
  Persist iter p db fs = (db', fs', None) ->
  Load p db' fs' = (db, fs', None)
  /\ forall k, Get k (Load p db' fs').1.1 = Get k db.
Proof.
  intros Hiter Hgo Hsave.
  destruct (Persist_success _ _ _ _ _ _ Hsave) as (msg & _ & -> & _).
  rewrite (Load_snapshot _ _ _ _ _ _ _ Hiter Hgo Hsave).
  rewrite (idemp_L (∪)). by destruct db.
Qed.

(** X9. For a store whose values are nil, [bool], [int] or [string]
    values: after a [Persist] that went through, [Load] of the path on a
    store made by [NewDataBase] succeeds and gives a store equal to the
    saved one. *)
Theorem Persist_then_Load_new_store iter p db fs db' fs' :
  MapRange (data db) iter ->
  map_Forall (fun _ v => goValue v) (data db) ->
  Persist iter p db fs = (db', fs', None) ->
  Load p NewDataBase fs' = (db, fs', None).
Proof.
  intros Hiter Hgo Hsave.
  rewrite (Load_snapshot _ _ _ _ _ _ _ Hiter Hgo Hsave).
  simpl. rewrite (right_id_L ∅ (∪)). by destruct db.
Qed.

(** X10. For stores whose values are nil, [bool], [int] or [string]
    values: after a [Persist] that went through, [Load] of the path on any
    store succeeds, and [Get k] then returns the saved entry when the
    saved store had the key, and what the loading store held before
    otherwise. *)
Theorem Load_snapshot_Get iter p saved fs db' fs' other k :
  MapRange (data saved) iter ->
  map_Forall (fun _ v => goValue v) (data saved) ->
  Persist iter p saved fs = (db', fs', None) ->
  (Load p other fs').2 = None
  /\ Get k (Load p other fs').1.1 =
       (if (Get k saved).2 then Get k saved else Get k other).
Proof.
  intros Hiter Hgo Hsave.
  rewrite (Load_snapshot _ _ _ _ _ _ _ Hiter Hgo Hsave). split; [done|].
  unfold Get. simpl. rewrite lookup_union.
  destruct (data saved !! k) as [v|]; simpl.
  - by destruct (data other !! k).
  - by rewrite (left_id_L None union).
Qed.

Lemma Persist_then_Load_same_store_witness :
  let saved := Persist (map_to_list (data mainStore)) "p" mainStore ∅ in
  Load "p" saved.1.1 saved.1.2 = (mainStore, saved.1.2, None)
  /\ forall k, Get k (Load "p" saved.1.1 saved.1.2).1.1 = Get k mainStore.
Proof.
  apply (Persist_then_Load_same_store (map_to_list (data mainStore)) "p" mainStore ∅).
  - unfold MapRange. reflexivity.
  - apply (bool_decide_unpack _). vm_compute. exact I.
  - vm_compute. reflexivity.
Defined.

Lemma Persist_then_Load_new_store_witness :
  let saved := Persist (map_to_list (data mainStore)) "p" mainStore ∅ in
  Load "p" NewDataBase saved.1.2 = (mainStore, saved.1.2, None).
Proof.
  apply (Persist_then_Load_new_store (map_to_list (data mainStore)) "p" mainStore ∅
           (Persist (map_to_list (data mainStore)) "p" mainStore ∅).1.1).
  - unfold MapRange. reflexivity.
  - apply (bool_decide_unpack _). vm_compute. exact I.
  - vm_compute. reflexivity.
Defined.

Lemma Load_snapshot_Get_witness :
  let saved := Persist (map_to_list (data mainStore)) "p" mainStore ∅ in
  let other := Set_ "key1" (VInt 7) (Set_ "c" VNil NewDataBase) in
  (Load "p" other saved.1.2).2 = None
  /\ Get "c" (Load "p" other saved.1.2).1.1 =
       (if (Get "c" mainStore).2 then Get "c" mainStore else Get "c" other).
Proof.
  apply (Load_snapshot_Get (map_to_list (data mainStore)) "p" mainStore ∅
           (Persist (map_to_list (data mainStore)) "p" mainStore ∅).1.1).
  - unfold MapRange. reflexivity.
  - apply (bool_decide_unpack _). vm_compute. exact I.
  - vm_compute. reflexivity.
Defined.

Lemma setMapIndex_keeps_keys m es k :
  is_Some (m !! k) -> is_Some (setMapIndex m es !! k).
Proof.
  revert m. induction es as [|[k' v] es IH]; intros m Hk; [done|].
  apply IH. simpl. destruct (decide (k' = k)) as [->|Hne].
  - rewrite lookup_insert_eq. by eexists.
  - by rewrite lookup_insert_ne.
Qed.

(** X11. [Load] never removes a key and never writes to the file system:
    whatever the file holds and however the call ends, a key [Get] found
    before is found after, and the file system is the same. *)
Theorem Load_keeps_keys p db fs k :
  (Get k db).2 = true ->
  (Get k (Load p db fs).1.1).2 = true /\ (Load p db fs).1.2 = fs.
Proof.
  intros Hk. unfold Load. destruct (os_Open fs p) as [e|file]; [done|].
  destruct (Decode_blind (GobDec.NewDecoder file)) as (es & res & Hd).
  rewrite (Hd (data db)).
  assert (Hk' : (Get k {| data := setMapIndex (data db) es |}).2 = true).
  { unfold Get in *. simpl.
    destruct (setMapIndex_keeps_keys (data db) es k) as [v ->]; [|done].
    by destruct (data db !! k). }
  by destruct res.
Qed.

Lemma Load_keeps_keys_witness :
  let db := Set_ "zz" (VInt 7) NewDataBase in
  let fs : FS := {[ "p" := Regular damagedSnapshot ]} in
  (Get "zz" (Load "p" db fs).1.1).2 = true /\ (Load "p" db fs).1.2 = fs.
Proof. apply Load_keeps_keys. reflexivity. Defined.

Module TruncFacts.
Import Bytes Gob GobDec BytesFacts WireFacts DecFacts IfaceFacts.

(** Above 127 an unsigned integer is a count byte and then that many
    bytes. *)
Lemma encodeUint_big x :
  127 < x -> x < 2 ^ 64 ->
  exists bc bs,
    encodeUint x = of_N (248 + bc) :: bs
    /\ bc <= 7 /\ N.of_nat (length bs) = 8 - bc.
Proof.
  intros Hlo Hhi. unfold encodeUint, uint64. rewrite (N.mod_small x) by done.
  replace (x <=? 127) with false by (symmetry; apply N.leb_gt; done).
  pose proof (size_bounds x ltac:(lia) Hhi) as [Hs8 Hs64].
  set (bc := (64 - N.size x) / 8).
  assert (Hbc : bc <= 7).
  { unfold bc. apply N.Div0.div_le_upper_bound. lia. }
  exists bc, (drop (N.to_nat bc) (be_bytes 8 x)). split; [|split; [done|]].
  - unfold uint64Size. f_equal. f_equal. lia.
  - rewrite length_drop, be_bytes_length. lia.
Qed.

(** A source cut inside an unsigned integer cannot be read. *)
Lemma readUint_cut short x k :
  x < 2 ^ 64 ->
  (k < length (encodeUint x))%nat ->
  readUint EOF short (take k (encodeUint x)) = inl EOF
  \/ readUint EOF short (take k (encodeUint x)) = inl short.
Proof.
  intros Hx Hk. destruct k as [|k]; [left; by rewrite take_0|].
  destruct (N.le_gt_cases x 127) as [Hsmall|Hbig].
  - exfalso. unfold encodeUint, uint64 in Hk. rewrite N.mod_small in Hk by done.
    apply N.leb_le in Hsmall. rewrite Hsmall in Hk. simpl in Hk. lia.
  - destruct (encodeUint_big x Hbig Hx) as (bc & bs & Henc & Hbc & Hlen).
    rewrite Henc in *. right. cbn [take readUint]. rewrite to_N_of_N.
    rewrite (N.mod_small (248 + bc)) by lia.
    replace (248 + bc <=? 127) with false by (symmetry; apply N.leb_gt; lia).
    replace (uint64Size <? 256 - (248 + bc)) with false
      by (symmetry; apply N.ltb_ge; unfold uint64Size; lia).
    simpl in Hk.
    replace (N.of_nat (length (take k bs)) <? 256 - (248 + bc)) with true; [done|].
    symmetry. apply N.ltb_lt. rewrite length_take. lia.
Qed.

(** A file cut inside a message: [recvMessage] fails with one of the two
    end-of-file errors. *)
Lemma recvMessage_cut payload k W :
  N.of_nat (length payload) < tooBig ->
  (k < length (encodeUint (N.of_nat (length payload)) ++ payload))%nat ->
  let d := mkDecoder
             (take k (encodeUint (N.of_nat (length payload)) ++ payload)) [] W in
  recvMessage d = inl EOF \/ recvMessage d = inl ErrUnexpectedEOF.
Proof.
  intros Hbig Hk d. unfold d, recvMessage, decodeUintReader. cbn [r wireType].
  set (L := N.of_nat (length payload)) in *.
  assert (HL : L < 2 ^ 64) by (by apply tooBig_lt_64).
  destruct (decide (k < length (encodeUint L))%nat) as [Hin|Hout].
  - rewrite take_app_le by lia.
    by destruct (readUint_cut ErrUnexpectedEOF L k HL Hin) as [-> | ->]; auto.
  - rewrite take_app_ge by lia.
    rewrite readUint_encodeUint by done.
    replace (tooBig <=? L) with false by (symmetry; by apply N.leb_gt).
    rewrite length_app in Hk.
    replace (N.of_nat (length (take (k - length (encodeUint L)) payload)) <? L)
      with true; [by right|].
    symmetry. apply N.ltb_lt. rewrite length_take. subst L. lia.
Qed.

Lemma Decode_cut_type_message m k :
  (k < 15)%nat ->
  exists e, Decode m (NewDecoder (take k typeMessage)) = (m, inl e)
            /\ classify e = DeserializationError.
Proof.
  intros Hk.
  do 15 (destruct k as [|k]; [eexists; by vm_compute|]). lia.
Qed.

Lemma Decode_cut m es msg k :
  valueMessage es = inr msg ->
  (k < length (typeMessage ++ msg))%nat ->
  exists e, Decode m (NewDecoder (take k (typeMessage ++ msg))) = (m, inl e)
            /\ classify e = DeserializationError.
Proof.
  intros Hmsg Hk.
  destruct (decide (k < 15)%nat) as [Hin|Hout].
  { rewrite take_app_le by (change (length typeMessage) with 15%nat; lia).
    by apply Decode_cut_type_message. }
  rewrite take_app_ge by (change (length typeMessage) with 15%nat; lia).
  change (length typeMessage) with 15%nat.
  apply valueMessage_inr in Hmsg as (body & Henc & Hbig & ->).
  rewrite length_app in Hk. change (length typeMessage) with 15%nat in Hk.
  unfold Decode, decodeTypeSequence. cbn [NewDecoder buf r length Nat.add].
  rewrite length_app. change (length typeMessage) with 15%nat.
  cbn [Nat.add]. rewrite typeSequenceLoop_typeMessage.
  cbn [typeSequenceLoop buf].
  match goal with
  | |- context [recvMessage ?d] =>
      destruct (recvMessage_cut _ (k - 15) mapTypes Hbig ltac:(lia)) as [-> | ->]
  end; by eexists.
Qed.

End TruncFacts.

(** X12. A snapshot cut short at any point is refused whole: [Load] of a
    proper prefix of the bytes [Persist] writes (the empty file included)
    fails with a decoding error and leaves the store and the file system
    as they were. *)
Theorem Load_truncated_snapshot iter msg p db fs k :
  Gob.valueMessage iter = inr msg ->
  (k < length (Gob.typeMessage ++ msg))%nat ->
  fs !! p = Some (Regular (take k (Gob.typeMessage ++ msg))) ->
  exists e, Load p db fs = (db, fs, Some e)
            /\ classify e = DeserializationError.
Proof.
  intros Hmsg Hk Hp. rewrite (Load_file _ _ _ _ Hp).
  destruct (TruncFacts.Decode_cut (data db) iter msg k Hmsg Hk) as (e & -> & He).
  exists e. split; [by destruct db|done].
Qed.

Lemma Load_truncated_snapshot_witness :
  let db := Set_ "a" (VString "old") NewDataBase in
  let fs : FS :=
    {[ "p" := Regular (take 27 (Gob.typeMessage ++ drop 15 goodSnapshot)) ]} in
  exists e, Load "p" db fs = (db, fs, Some e)
            /\ classify e = DeserializationError.
Proof.
  apply (Load_truncated_snapshot [("a", VInt 1); ("b", VInt 2)]
           (drop 15 goodSnapshot) "p" _ _ 27).
  - vm_compute. reflexivity.
  - vm_compute. lia.
  - reflexivity.
Defined.

(** ** The program *)

Lemma mainStore_range iter :
  MapRange (data mainStore) iter ->
  iter = [("key1", VString "value1"); ("key2", VString "value2")]
  \/ iter = [("key2", VString "value2"); ("key1", VString "value1")].
Proof.
  unfold MapRange. intros H.
  assert (Hl : map_to_list (data mainStore)
               = [("key1", VString "value1"); ("key2", VString "value2")]
               \/ map_to_list (data mainStore)
               = [("key2", VString "value2"); ("key1", VString "value1")]).
  { vm_compute. auto. }
  destruct Hl as [Hl|Hl]; rewrite Hl in H; symmetry in H;
    apply Permutation_length_2_inv in H; destruct H; auto.
Qed.

Lemma mainStore_values : map_Forall (fun _ v => goValue v) (data mainStore).
Proof. apply (bool_decide_unpack _). by vm_compute. Qed.

Lemma mainStore_message iter :
  MapRange (data mainStore) iter -> exists msg, Gob.valueMessage iter = inr msg.
Proof.
  intros H. destruct (mainStore_range iter H) as [-> | ->]; eexists;
    vm_compute; reflexivity.
Qed.

Lemma main_creatable iter fs :
  MapRange (data mainStore) iter ->
  fs !! "database.gob" <> Some NoAccess ->
  exists msg,
    Gob.valueMessage iter = inr msg
    /\ main iter fs
       = (Exited ("key1: value2" ++ newline),
          <["database.gob" := Regular (Gob.typeMessage ++ msg)]> fs).
Proof.
  intros Hiter Hp. destruct (mainStore_message iter Hiter) as [msg Hmsg].
  exists msg. split; [done|]. unfold main. fold mainStore.
  assert (Hsave : Persist iter "database.gob" mainStore fs
                  = (mainStore,
                     <["database.gob" := Regular (Gob.typeMessage ++ msg)]> fs,
                     None)).
  { by rewrite Persist_creatable, Hmsg. }
  rewrite Hsave.
  rewrite (Load_snapshot _ _ _ _ _ _ mainStore Hiter mainStore_values Hsave).
  rewrite (idemp_L (∪)). done.
Qed.

(** X13. When [database.gob] can be created, [main] prints
    [key1: value2] and exits, in whatever order the map is walked, and
    leaves the snapshot of its two entries in [database.gob]. *)
Theorem main_prints_value2 iter fs :
  MapRange (data mainStore) iter ->
  fs !! "database.gob" <> Some NoAccess ->
  exists msg,
    Gob.valueMessage iter = inr msg
    /\ main iter fs
       = (Exited ("key1: value2" ++ newline),
          <["database.gob" := Regular (Gob.typeMessage ++ msg)]> fs).
Proof. apply main_creatable. Qed.

Lemma main_prints_value2_witness :
  exists msg,
    Gob.valueMessage (map_to_list (data mainStore)) = inr msg
    /\ main (map_to_list (data mainStore)) ∅
       = (Exited ("key1: value2" ++ newline),
          <["database.gob" := Regular (Gob.typeMessage ++ msg)]> ∅).
Proof.
  apply main_prints_value2.
  - unfold MapRange. reflexivity.
  - vm_compute. discriminate.
Defined.



(** X18. The order in which [Persist] walks the map does not show after
    a [Load]: two saves of one store, whatever their orders, load into any
    store with the same result. *)
Theorem Load_ignores_save_order iter1 iter2 p1 p2 saved fs1 fs2 db1 db2 fs1' fs2' other :
  MapRange (data saved) iter1 ->
  MapRange (data saved) iter2 ->
  map_Forall (fun _ v => goValue v) (data saved) ->
  Persist iter1 p1 saved fs1 = (db1, fs1', None) ->
  Persist iter2 p2 saved fs2 = (db2, fs2', None) ->
  (Load p1 other fs1').1.1 = (Load p2 other fs2').1.1
  /\ (Load p1 other fs1').2 = (Load p2 other fs2').2.
Proof.
  intros H1 H2 Hgo Hs1 Hs2.
  rewrite (Load_snapshot _ _ _ _ _ _ other H1 Hgo Hs1).
  by rewrite (Load_snapshot _ _ _ _ _ _ other H2 Hgo Hs2).
Qed.

Lemma Load_ignores_save_order_witness :
  let iter1 := [("key1", VString "value1"); ("key2", VString "value2")] in
  let iter2 := [("key2", VString "value2"); ("key1", VString "value1")] in
  let s1 := Persist iter1 "p" mainStore ∅ in
  let s2 := Persist iter2 "q" mainStore ∅ in
  s1.1.2 !! "p" <> s2.1.2 !! "q"
  /\ (Load "p" NewDataBase s1.1.2).1.1 = (Load "q" NewDataBase s2.1.2).1.1
  /\ (Load "p" NewDataBase s1.1.2).2 = (Load "q" NewDataBase s2.1.2).2.
Proof.
  split; [vm_compute; discriminate|].
  apply (Load_ignores_save_order
           [("key1", VString "value1"); ("key2", VString "value2")]
           [("key2", VString "value2"); ("key1", VString "value1")]
           "p" "q" mainStore ∅ ∅
           (Persist [("key1", VString "value1"); ("key2", VString "value2")]
                    "p" mainStore ∅).1.1
           (Persist [("key2", VString "value2"); ("key1", VString "value1")]
                    "q" mainStore ∅).1.1).
  - unfold MapRange. apply (bool_decide_unpack _). by vm_compute.
  - unfold MapRange. apply (bool_decide_unpack _). by vm_compute.
  - apply (bool_decide_unpack _). by vm_compute.
  - vm_compute. reflexivity.
  - vm_compute. reflexivity.
Defined.

(** ** The lock *)

Module LockFacts.
Import Locking.
Local Open Scope nat_scope.

Lemma holders_insert md cs i c c' :
  cs !! i = Some c ->
  holders md (<[i := c']> cs) + holds md c = holders md cs + holds md c'.
Proof.
  revert i. induction cs as [|x cs IH]; intros [|i] Hi; try done; simpl in *.
  - injection Hi as ->. lia.
  - specialize (IH i Hi). lia.
Qed.

Lemma holders_start md ops : holders md (calls (start ops)) = 0.
Proof. induction ops as [|o ops IH]; simpl in *; [done|]. by rewrite IH. Qed.

Lemma consistent_start ops : consistent (start ops).
Proof. unfold consistent. rewrite !holders_start. done. Qed.

Lemma holds_running md o :
  holds md (mkCall o Running) = if mode_eqb (lockMode o) md then 1 else 0.
Proof. done. Qed.

Lemma consistent_step i s s' :
  consistent s -> step i s = Some s' -> consistent s'.
Proof.
  intros (HW & HR & Hex) Hstep. unfold step in Hstep.
  destruct (calls s !! i) as [[o [| |]]|] eqn:Hi; try done.
  - destruct (acquire (lockMode o) (lock s)) as [mu|] eqn:Hacq; [|done].
    injection Hstep as <-.
    pose proof (holders_insert Exclusive _ _ _ (mkCall o Running) Hi) as HE.
    pose proof (holders_insert Shared _ _ _ (mkCall o Running) Hi) as HS.
    rewrite holds_running in HE, HS. unfold holds in HE, HS. simpl in HE, HS.
    unfold consistent, acquire in *. simpl.
    destruct (lockMode o), (writer (lock s)) eqn:Hw; simpl in *; try done.
    + destruct (readers (lock s)) eqn:Hr; simpl in *; [|done].
      injection Hacq as <-. simpl. repeat split; lia.
    + injection Hacq as <-. simpl. repeat split; (lia || done).
  - injection Hstep as <-.
    pose proof (holders_insert Exclusive _ _ _ (mkCall o Returned) Hi) as HE.
    pose proof (holders_insert Shared _ _ _ (mkCall o Returned) Hi) as HS.
    rewrite holds_running in HE, HS. unfold holds in HE, HS. simpl in HE, HS.
    unfold consistent, release in *. simpl.
    destruct (lockMode o), (writer (lock s)) eqn:Hw; simpl in *;
      repeat split; try lia; try done.
Qed.

Lemma consistent_run sched s s' :
  consistent s -> run sched s = Some s' -> consistent s'.
Proof.
  revert s. induction sched as [|i sched IH]; intros s Hs Hrun; simpl in Hrun.
  - by injection Hrun as <-.
  - destruct (step i s) as [s1|] eqn:Hstep; [|done].
    eapply IH; [|done]. by eapply consistent_step.
Qed.

Lemma running_holds s i o :
  running s i o -> 1 <= holders (lockMode o) (calls s).
Proof.
  unfold running. generalize (calls s). intros cs. revert i.
  induction cs as [|c cs IH]; intros [|i] Hi; try done; simpl in *.
  - injection Hi as ->. unfold holds. simpl. destruct (lockMode o); simpl; lia.
  - specialize (IH i Hi). lia.
Qed.

Lemma two_running s i j o o' :
  running s i o -> running s j o' -> i <> j ->
  lockMode o = lockMode o' -> 2 <= holders (lockMode o) (calls s).
Proof.
  unfold running. generalize (calls s). intros cs. revert i j.
  induction cs as [|c cs IH]; intros [|i] [|j] Hi Hj Hne Hmode; try done; simpl in *.
  - injection Hi as ->.
    pose proof (running_holds (mkSystem free cs) j o' Hj) as H. simpl in H.
    rewrite <- Hmode in H. unfold holds. simpl.
    destruct (lockMode o); simpl; lia.
  - injection Hj as ->.
    pose proof (running_holds (mkSystem free cs) i o Hi) as H. simpl in H.
    unfold holds at 1. simpl. rewrite <- Hmode.
    destruct (lockMode o); simpl; lia.
  - assert (i <> j) by congruence. specialize (IH i j Hi Hj H Hmode). lia.
Qed.

End LockFacts.

Import Locking LockFacts.
Local Open Scope nat_scope.

(** C8, amended. [Persist] takes the lock in shared mode, as [Get] does,
    while [Set] and [Load] take it in exclusive mode.  So whatever runs on
    the same store while a [Persist] is inside its body is a [Get] or
    another [Persist], never a [Set] or a [Load]; and both do happen: a
    [Get], and likewise a second [Persist], can be inside its body
    together with a [Persist] (on stores with no writer about, so that no
    waiting writer holds readers back). *)
Theorem Persist_excludes_writers :
  (lockMode MPersist = Shared /\ lockMode MGet = Shared
   /\ lockMode MSet = Exclusive /\ lockMode MLoad = Exclusive)
  /\ (forall ops sched s i j o,
        run sched (start ops) = Some s ->
        running s i MPersist ->
        running s j o ->
        lockMode o = Shared /\ (o = MGet \/ o = MPersist))
  /\ (exists s, run [0; 1] (start [MPersist; MGet]) = Some s
        /\ running s 0 MPersist /\ running s 1 MGet)
  /\ (exists s, run [0; 1] (start [MPersist; MPersist]) = Some s
        /\ running s 0 MPersist /\ running s 1 MPersist).
Proof.
  split; [done|]. split; [|split; eexists; repeat split; reflexivity].
  intros ops sched s i j o Hrun Hi Hj.
  pose proof (consistent_run _ _ _ (consistent_start ops) Hrun) as (HW & HR & Hex).
  apply running_holds in Hi. apply running_holds in Hj. simpl in Hi.
  assert (Hm : lockMode o = Shared).
  { destruct (lockMode o) eqn:Ho; [|done]. exfalso.
    destruct (writer (lock s)); [|lia]. specialize (Hex eq_refl). lia. }
  split; [done|]. destruct o; simpl in Hm; try done; auto.
Qed.

Lemma writers_run_alone ops sched s i j o o' :
  run sched (start ops) = Some s ->
  running s i o -> lockMode o = Exclusive ->
  running s j o' -> i = j.
Proof.
  intros Hrun Hi Hmode Hj.
  pose proof (consistent_run _ _ _ (consistent_start ops) Hrun) as (HW & HR & Hex).
  destruct (decide (i = j)) as [|Hne]; [done|exfalso].
  pose proof (running_holds _ _ _ Hi) as H1. rewrite Hmode in H1.
  destruct (writer (lock s)); [|lia]. specialize (Hex eq_refl).
  destruct (lockMode o') eqn:Ho'.
  - pose proof (two_running _ _ _ _ _ Hi Hj Hne ltac:(congruence)) as H2.
    rewrite Hmode in H2. lia.
  - pose proof (running_holds _ _ _ Hj) as H2. rewrite Ho' in H2. lia.
Qed.

Lemma Persist_excludes_writers_witness :
  lockMode MGet = Shared /\ (MGet = MGet \/ MGet = MPersist).
Proof.
  apply (proj1 (proj2 Persist_excludes_writers) [MPersist; MGet; MSet] [0; 1]
           (mkSystem (mkRWMutex false 2)
              [mkCall MPersist Running; mkCall MGet Running; mkCall MSet Waiting])
           0 1 MGet); reflexivity.
Defined.

(** C8 as stated fails: [Persist] does not take the lock in exclusive
    mode, and there is a schedule under which a [Persist] and a [Get] on
    the same store are inside their bodies at the same time. *)
Lemma Persist_runs_beside_Get :
  lockMode MPersist <> Exclusive
  /\ exists s, run [0; 1] (start [MPersist; MGet]) = Some s
       /\ running s 0 MPersist /\ running s 1 MGet.
Proof.
  split; [done|]. eexists. repeat split; reflexivity.
Qed.

(** ** Further properties of the lock *)

Lemma holders_at_rest md cs :
  Forall (fun c => at_ c <> Running) cs -> holders md cs = 0.
Proof.
  induction 1 as [|c cs Hc _ IH]; simpl; [done|].
  rewrite IH. unfold holds. by destruct (at_ c).
Qed.

Lemma lock_at_rest s :
  consistent s -> Forall (fun c => at_ c <> Running) (calls s) -> lock s = free.
Proof.
  intros (HW & HR & _) Hrest.
  rewrite (holders_at_rest Exclusive _ Hrest) in HW.
  rewrite (holders_at_rest Shared _ Hrest) in HR.
  destruct (lock s) as [[] n]; simpl in *; [lia|]. by subst.
Qed.

(** X15. While a [Set] or a [Load] is inside its body, no other call on
    the same store is inside its body, under any schedule. *)
Theorem writers_exclude_everyone ops sched s i j o o' :
  run sched (start ops) = Some s ->
  running s i o -> (o = MSet \/ o = MLoad) ->
  running s j o' -> i = j.
Proof.
  intros Hrun Hi Ho Hj.
  eapply writers_run_alone; [exact Hrun|exact Hi| |exact Hj].
  by destruct Ho as [-> | ->].
Qed.

Lemma writers_exclude_everyone_witness :
  let s := mkSystem (mkRWMutex true 0)
             [mkCall MGet Waiting; mkCall MLoad Running; mkCall MSet Waiting] in
  run [1] (start [MGet; MLoad; MSet]) = Some s
  /\ forall j o', running s j o' -> 1 = j.
Proof.
  split; [reflexivity|]. intros j o' Hj.
  apply (writers_exclude_everyone [MGet; MLoad; MSet] [1]
           (mkSystem (mkRWMutex true 0)
              [mkCall MGet Waiting; mkCall MLoad Running; mkCall MSet Waiting])
           1 j MLoad o'); [reflexivity|reflexivity|by right|exact Hj].
Defined.

(** X16. Every call gives back the lock it took: under any schedule,
    once all calls have returned the lock is free. *)
Theorem lock_free_when_all_returned ops sched s :
  run sched (start ops) = Some s ->
  Forall (fun c => at_ c = Returned) (calls s) ->
  lock s = free.
Proof.
  intros Hrun Hall. apply lock_at_rest.
  - by eapply consistent_run; [apply consistent_start|].
  - eapply Forall_impl; [exact Hall|]. intros c ->. done.
Qed.

Lemma lock_free_when_all_returned_witness :
  lock (mkSystem free [mkCall MPersist Returned; mkCall MSet Returned]) = free.
Proof.
  apply (lock_free_when_all_returned [MPersist; MSet] [0; 0; 1; 1]).
  - reflexivity.
  - repeat constructor.
Defined.
